(** * Task scheduler: conflict graph and maximum-weight independent set

    A shallow embedding of [tasks/scheduler.py].  Python objects are
    modelled as follows.

    - A task record (a [dict]) is a record of three optional fields, one
      per key the program reads; an absent key is [None].
    - Profits are Python numbers.  They are modelled as exact rationals
      ([Q]); comparisons are the boolean tests of [QArith].
    - A [dict] with string keys is an association list in insertion order
      with first-match lookup, as CPython's dicts iterate.
    - An exception is a constructor of [exn]; a computation that may raise
      returns a [result].
    - The list object handed to [from_tasks_to_graph] is mutated in place;
      the functions that touch it return its final content next to their
      result. *)

From Stdlib Require Import List String Bool Arith Lia QArith Permutation DecimalString.
Import ListNotations.

Local Open Scope string_scope.
Local Open Scope list_scope.

Set Implicit Arguments.

(** ** Exceptions and results *)

Inductive exn : Type :=
| KeyError (arg : string)
| ValueError (arg : string)
| InvalidTaskFormat (msg : string).

(** [OutOfFuel] is the answer of a bounded loop or recursion whose budget
    ran out; the theorems below show that it is never produced. *)
Inductive result (A : Type) : Type :=
| Ok (a : A)
| Raise (e : exn)
| OutOfFuel.

Arguments Ok {A} a.
Arguments Raise {A} e.
Arguments OutOfFuel {A}.

Definition bind {A B : Type} (c : result A) (k : A -> result B) : result B :=
  match c with
  | Ok a => k a
  | Raise e => Raise e
  | OutOfFuel => OutOfFuel
  end.

Notation "x <- c ;; k" := (bind c (fun x => k))
  (at level 61, c at next level, right associativity).

(** [[f(x) for x in l]] where [f] may raise. *)
Fixpoint mapM {A B : Type} (f : A -> result B) (l : list A) : result (list B) :=
  match l with
  | [] => Ok []
  | x :: l' => y <- f x ;; ys <- mapM f l' ;; Ok (y :: ys)
  end.

(** [[x for x in l if f(x)]] where [f] may raise. *)
Fixpoint filterM {A : Type} (f : A -> result bool) (l : list A) : result (list A) :=
  match l with
  | [] => Ok []
  | x :: l' =>
      b <- f x ;; ys <- filterM f l' ;; Ok (if b then x :: ys else ys)
  end.

(** [for x in l: st = f(st, x)] where [f] may raise. *)
Fixpoint foldM {A S : Type} (f : S -> A -> result S) (l : list A) (st : S) : result S :=
  match l with
  | [] => Ok st
  | x :: l' => st' <- f st x ;; foldM f l' st'
  end.

(** ** Numbers *)

(** [a > b] *)
Definition Qgtb (a b : Q) : bool := negb (Qle_bool a b).

(** ** Dictionaries with string keys *)

Definition dict (V : Type) : Type := list (string * V).

Fixpoint dict_get {V : Type} (d : dict V) (k : string) : option V :=
  match d with
  | [] => None
  | (k', v) :: d' => if String.eqb k' k then Some v else dict_get d' k
  end.

(** [k in d] *)
Definition dict_mem {V : Type} (d : dict V) (k : string) : bool :=
  match dict_get d k with Some _ => true | None => false end.

(** [d[k] = v]: overwrites in place, or appends a new key at the end. *)
Fixpoint dict_set {V : Type} (d : dict V) (k : string) (v : V) : dict V :=
  match d with
  | [] => [(k, v)]
  | (k', v') :: d' =>
      if String.eqb k' k then (k, v) :: d' else (k', v') :: dict_set d' k v
  end.

(** [d[k]], raising [KeyError] on an absent key. *)
Definition getitem {V : Type} (d : dict V) (k : string) : result V :=
  match dict_get d k with
  | Some v => Ok v
  | None => Raise (KeyError k)
  end.

(** [d.update(upd)] *)
Definition dict_update {V : Type} (d upd : dict V) : dict V :=
  fold_left (fun acc kv => dict_set acc (fst kv) (snd kv)) upd d.

Definition keys {V : Type} (d : dict V) : list string := map fst d.

(** [x in l] for a list of strings. *)
Definition contains (l : list string) (x : string) : bool :=
  existsb (String.eqb x) l.

(** [l.remove(x)]: drops the first occurrence, [ValueError] if there is
    none. *)
Fixpoint list_remove (l : list string) (x : string) : result (list string) :=
  match l with
  | [] => Raise (ValueError "list.remove(x): x not in list")
  | y :: l' =>
      if String.eqb y x then Ok l'
      else l'' <- list_remove l' x ;; Ok (y :: l'')
  end.

(** [min(l)]: the first smallest element, [ValueError] on an empty
    sequence. *)
Fixpoint min_from (m : Q) (l : list Q) : Q :=
  match l with
  | [] => m
  | x :: l' => min_from (if Qgtb m x then x else m) l'
  end.

Definition py_min (l : list Q) : result Q :=
  match l with
  | [] => Raise (ValueError "min() arg is an empty sequence")
  | x :: l' => Ok (min_from x l')
  end.

(** [sorted(l, key=key, reverse=True)]: a stable sort into descending key
    order, so elements with equal keys keep their relative order. *)
Fixpoint insert_desc (key : string -> nat) (x : string) (l : list string) : list string :=
  match l with
  | [] => [x]
  | y :: l' =>
      if Nat.leb (key y) (key x) then x :: l else y :: insert_desc key x l'
  end.

Definition sorted_reverse (key : string -> nat) (l : list string) : list string :=
  fold_right (insert_desc key) [] l.

(** ** The keys of a task record *)

Definition NAME_KEY : string := "name".
Definition RESOURCES_KEY : string := "resources".
Definition PROFIT_KEY : string := "profit".

(** A task record as the program sees it: the value under each of the three
    keys, [None] when the key is absent. *)
Record task : Type := mkTask {
  task_name : option string;
  task_resources : option (list string);
  task_profit : option Q
}.

(** [t[key]] on a task record. *)
Definition lookup {A : Type} (key : string) (field : option A) : result A :=
  match field with
  | Some a => Ok a
  | None => Raise (KeyError key)
  end.

(** ** networkx.Graph *)

(** Modelled from the spec: [networkx.Graph] is imported by
    [scheduler.py] and is not under src/.  The spec's ConflictGraph is an
    undirected simple graph whose nodes are task names carrying a weight.
    The graph keeps, per node and in insertion order, the node's attribute
    dict and the dict of its neighbours (the library's [_node] and [_adj],
    which always hold the same keys). *)
Record node_entry : Type := mkEntry {
  attrs : dict Q;
  nbrs : list string
}.

Definition Graph : Type := dict node_entry.

Definition empty_graph : Graph := [].

(** [G.nodes()] *)
Definition nodes (g : Graph) : list string := keys g.

(** [G.nodes[v]]: the attribute dict of [v]. *)
Definition node_attrs (g : Graph) (v : string) : dict Q :=
  match dict_get g v with
  | Some e => attrs e
  | None => []
  end.

(** Modelled from the spec: [Graph.add_node(n, **attr)] of networkx, not
    under src/: "adds one node per task with its profit as weight"; a node
    that is already there keeps its place and has its attributes
    updated. *)
Definition add_node (g : Graph) (n : string) (attr : dict Q) : Graph :=
  match dict_get g n with
  | None => dict_set g n (mkEntry (dict_update [] attr) [])
  | Some e => dict_set g n (mkEntry (dict_update (attrs e) attr) (nbrs e))
  end.

Definition ensure_node (g : Graph) (n : string) : Graph :=
  match dict_get g n with
  | None => dict_set g n (mkEntry [] [])
  | Some _ => g
  end.

(** [adj[u][v] = {}]: [v] becomes a key of [u]'s neighbour dict. *)
Definition add_nbr (g : Graph) (u v : string) : Graph :=
  match dict_get g u with
  | Some e =>
      dict_set g u
        (mkEntry (attrs e) (if contains (nbrs e) v then nbrs e else nbrs e ++ [v]))
  | None => g
  end.

(** Modelled from the spec: [Graph.add_edge(u, v)] of networkx, not under
    src/: "adds an edge"; end points that are not nodes yet are added,
    without attributes, and each end point becomes a neighbour of the
    other. *)
Definition add_edge (g : Graph) (u v : string) : Graph :=
  add_nbr (add_nbr (ensure_node (ensure_node g u) v) u v) v u.

(** Modelled from the spec: [Graph.has_edge(u, v)] of networkx, not under
    src/: "w is adjacent to v". *)
Definition has_edge (g : Graph) (u v : string) : bool :=
  match dict_get g u with
  | Some e => contains (nbrs e) v
  | None => false
  end.

(** Modelled from the spec: [Graph.degree(v)] of networkx, not under src/:
    the number of neighbours, a self-loop counting twice. *)
Definition degree (g : Graph) (v : string) : nat :=
  match dict_get g v with
  | Some e => (List.length (nbrs e) + (if contains (nbrs e) v then 1 else 0))%nat
  | None => 0%nat
  end.


(** ** MaxWeightTasksSelector *)

(** The fields of the selector object.  [ghost_calls] is a ghost field, not
    a field of the Python object: [expand] appends its candidate [C] to it
    on entry, so that a property of every recursion level can be stated.
    Nothing reads it. *)
Record MaxWeightTasksSelector : Type := mkSelector {
  G : Graph;
  incumbent_nodes : list string;
  incumbent_weight : Q;
  node_weights : dict Q;
  ghost_calls : list (list string)
}.

Definition repr (v : string) : string :=
  String.append "'" (String.append v "'").

(** [{v: f(v) for v in vs}] where [f] may raise. *)
Definition dict_comp (f : string -> result Q) (vs : list string) : result (dict Q) :=
  foldM (fun d v => x <- f v ;; Ok (dict_set d v x)) vs [].

(** [MaxWeightTasksSelector.__init__(G, weight)], lines 22-34. *)
Definition MaxWeightTasksSelector_init (g : Graph) (weight : option string)
  : result MaxWeightTasksSelector :=
  match weight with
  | None =>
      w <- dict_comp (fun _ => Ok 1%Q) (nodes g) ;;
      Ok (mkSelector g [] 0%Q w [])
  | Some weight =>
      _ <- foldM (fun (_ : unit) v =>
                    if dict_mem (node_attrs g v) weight then Ok tt
                    else Raise (KeyError
                           (String.append "Node "
                              (String.append (repr v)
                                 " does not have the requested weight field."))))
                 (nodes g) tt ;;
      w <- dict_comp (fun v => getitem (node_attrs g v) weight) (nodes g) ;;
      Ok (mkSelector g [] 0%Q w [])
  end.

(** Modelled from the spec: [update_incumbent_if_improved] is inherited
    from networkx's [MaxWeightClique], not under src/: "If C_weight >
    incumbent.weight, replace incumbent with (C, C_weight)". *)
Definition update_incumbent_if_improved
  (s : MaxWeightTasksSelector) (C : list string) (C_weight : Q)
  : MaxWeightTasksSelector :=
  if Qgtb C_weight (incumbent_weight s)
  then mkSelector (G s) C C_weight (node_weights s) (ghost_calls s)
  else s.

(** The loop of [greedily_find_independent_set]: take the head of the pool,
    keep the nodes that are neither it nor adjacent to it. *)
Fixpoint greedy_loop (fuel : nat) (g : Graph) (P : list string) : list string :=
  match P with
  | [] => []
  | v :: _ =>
      match fuel with
      | O => []
      | S fuel' =>
          v :: greedy_loop fuel' g
                 (filter (fun w => negb (String.eqb v w) && negb (has_edge g v w)) P)
      end
  end.

(** Modelled from the spec: [greedily_find_independent_set] is inherited
    from networkx's [MaxWeightClique], not under src/: one group of the
    "greedy partition of P's induced subgraph into ... independent
    groups".  The pool loses its head at every round, so [length P] rounds
    are enough. *)
Definition greedily_find_independent_set
  (s : MaxWeightTasksSelector) (P : list string) : list string :=
  greedy_loop (List.length P) (G s) P.

(** The [while P] loop of [find_branching_nodes]. *)
Fixpoint branching_loop (fuel : nat) (s : MaxWeightTasksSelector)
  (residual_wt : dict Q) (total_wt target : Q) (P : list string)
  : result (list string) :=
  match P with
  | [] => Ok P
  | _ :: _ =>
      match fuel with
      | O => OutOfFuel
      | S fuel' =>
          let independent_set := greedily_find_independent_set s P in
          ws <- mapM (getitem residual_wt) independent_set ;;
          min_wt_in_class <- py_min ws ;;
          let total_wt := (total_wt + min_wt_in_class)%Q in
          if Qgtb total_wt target then Ok P
          else
            residual_wt <-
              foldM (fun r v => x <- getitem r v ;;
                                Ok (dict_set r v (x - min_wt_in_class)%Q))
                    independent_set residual_wt ;;
            P <- filterM (fun v => x <- getitem residual_wt v ;;
                                   Ok (negb (Qeq_bool x 0)))
                         P ;;
            branching_loop fuel' s residual_wt total_wt target P
      end
  end.

(** Modelled from the spec: [find_branching_nodes] is inherited from
    networkx's [MaxWeightClique], not under src/: the "branching set: a
    subset of P worth exploring, filtered by an upper-bound test ...
    computed via a greedy partition of P's induced subgraph into
    weight-bounded independent groups (a coloring-style upper bound)".
    The groups are independent sets of [G] itself: the method is the one of
    the clique search, unchanged.  It works on a copy of [P]. *)
Definition find_branching_nodes
  (s : MaxWeightTasksSelector) (P : list string) (target : Q)
  : result (list string) :=
  residual_wt <- dict_comp (getitem (node_weights s)) P ;;
  branching_loop (List.length P) s residual_wt 0%Q target P.

(** The [while branching_nodes] loop of [expand], lines 39-45, over the
    branching nodes in the order [pop()] yields them (last first); [rec] is
    the recursive call of line 45. *)
Fixpoint branch_loop
  (rec : MaxWeightTasksSelector -> list string -> Q -> list string
         -> result MaxWeightTasksSelector)
  (s : MaxWeightTasksSelector) (C : list string) (C_weight : Q)
  (P : list string) (popped : list string) : result MaxWeightTasksSelector :=
  match popped with
  | [] => Ok s
  | v :: popped' =>
      P <- list_remove P v ;;
      let new_C := C ++ [v] in
      wv <- getitem (node_weights s) v ;;
      let new_C_weight := (C_weight + wv)%Q in
      let new_P := filter (fun w => negb (has_edge (G s) v w)) P in
      s <- rec s new_C new_C_weight new_P ;;
      branch_loop rec s C C_weight P popped'
  end.

Definition log_call (s : MaxWeightTasksSelector) (C : list string)
  : MaxWeightTasksSelector :=
  mkSelector (G s) (incumbent_nodes s) (incumbent_weight s) (node_weights s)
             (ghost_calls s ++ [C]).

(** [MaxWeightTasksSelector.expand(C, C_weight, P)], lines 36-45.  [depth]
    bounds the depth of the recursion. *)
Fixpoint expand (depth : nat) (s : MaxWeightTasksSelector)
  (C : list string) (C_weight : Q) (P : list string)
  : result MaxWeightTasksSelector :=
  match depth with
  | O => OutOfFuel
  | S depth' =>
      let s := log_call s C in
      let s := update_incumbent_if_improved s C C_weight in
      branching_nodes <-
        find_branching_nodes s P (incumbent_weight s - C_weight)%Q ;;
      branch_loop (expand depth') s C C_weight P (rev branching_nodes)
  end.

(** Modelled from the spec: [find_max_weight_clique] is inherited from
    networkx's [MaxWeightClique], not under src/: the top-level call, with
    "P: the pool of nodes still eligible to extend C - initially all graph
    nodes" of positive weight, highest degree first. *)
Definition find_max_weight_clique (depth : nat) (s : MaxWeightTasksSelector)
  : result MaxWeightTasksSelector :=
  let nodes := sorted_reverse (degree (G s)) (nodes (G s)) in
  nodes <- filterM (fun v => w <- getitem (node_weights s) v ;; Ok (Qgtb w 0))
                   nodes ;;
  expand depth s [] 0%Q nodes.

(** The first two statements of [get_maximum_weighted_independient_set],
    lines 123-124: the selector after the search.  The recursion is given
    one level per node and one for the top-level call. *)
Definition search (graph : Graph) : result MaxWeightTasksSelector :=
  mwts <- MaxWeightTasksSelector_init graph (Some PROFIT_KEY) ;;
  find_max_weight_clique (S (List.length (nodes graph))) mwts.

(** [get_maximum_weighted_independient_set(graph)], lines 113-130; the
    call of [logging.info] leaves no trace in the result. *)
Definition get_maximum_weighted_independient_set (graph : Graph)
  : result (list string) :=
  mwts <- search graph ;;
  Ok (incumbent_nodes mwts).

(** ** The conflict graph *)

(** [are_incompatibles(t1_resources, t2_resources)], lines 48-67. *)
Definition are_incompatibles (t1_resources t2_resources : list string) : bool :=
  existsb (fun item => contains t2_resources item) t1_resources
  || existsb (fun item => contains t1_resources item) t2_resources.

Section Scheduler.

(** Python's [str] on a task record. *)
Variable str : task -> string.

Definition invalid_task_msg (t1 : task) : string :=
  String.append "Invalid task format for task: "
    (String.append (str t1)
       ". Please, review task structure and try again.").

(** Lines 98-106: the [try] block around [graph.add_node]. *)
Definition try_add_node (graph : Graph) (t1 : task) : result Graph :=
  match (n <- lookup NAME_KEY (task_name t1) ;;
         p <- lookup PROFIT_KEY (task_profit t1) ;;
         Ok (add_node graph n [(PROFIT_KEY, p)])) with
  | Raise (KeyError _) => Raise (InvalidTaskFormat (invalid_task_msg t1))
  | r => r
  end.

(** Lines 107-109: [for t2 in tasks], over the tasks still in the list. *)
Fixpoint add_conflicts (graph : Graph) (t1 : task) (tasks : list task)
  : result Graph :=
  match tasks with
  | [] => Ok graph
  | t2 :: tasks' =>
      r1 <- lookup RESOURCES_KEY (task_resources t1) ;;
      r2 <- lookup RESOURCES_KEY (task_resources t2) ;;
      if are_incompatibles r1 r2 then
        n1 <- lookup NAME_KEY (task_name t1) ;;
        n2 <- lookup NAME_KEY (task_name t2) ;;
        add_conflicts (add_edge graph n1 n2) t1 tasks'
      else add_conflicts graph t1 tasks'
  end.

(** Lines 96-110: the [while tasks] loop.  [tasks.pop()] takes the last
    element, so the loop runs over the reversed list: [t1] is the task
    popped and [rev rev_rest] the list that is left.  The first
    component of the answer is the content of the list object when the
    function returns or raises. *)
Fixpoint build_loop (graph : Graph) (rev_tasks : list task)
  : list task * result Graph :=
  match rev_tasks with
  | [] => ([], Ok graph)
  | t1 :: rev_rest =>
      let tasks := rev rev_rest in
      match try_add_node graph t1 with
      | Ok graph =>
          match add_conflicts graph t1 tasks with
          | Ok graph => build_loop graph rev_rest
          | Raise e => (tasks, Raise e)
          | OutOfFuel => (tasks, OutOfFuel)
          end
      | Raise e => (tasks, Raise e)
      | OutOfFuel => (tasks, OutOfFuel)
      end
  end.

(** [from_tasks_to_graph(tasks)], lines 70-110. *)
Definition from_tasks_to_graph (tasks : list task) : list task * result Graph :=
  build_loop empty_graph (rev tasks).

(** [get_highest_profit_schedule(tasks)], lines 133-144, together with the
    content of the caller's list afterwards. *)
Definition get_highest_profit_schedule (tasks : list task)
  : list task * result (list string) :=
  let (tasks', r) := from_tasks_to_graph tasks in
  (tasks', graph <- r ;; get_maximum_weighted_independient_set graph).

(** The selector the search of [get_highest_profit_schedule] ends with. *)
Definition schedule_search (tasks : list task) : result MaxWeightTasksSelector :=
  graph <- snd (from_tasks_to_graph tasks) ;; search graph.

End Scheduler.

(** ** Well-formed input *)

(** A task record with the three keys. *)
Definition T (n : string) (r : list string) (p : Q) : task :=
  mkTask (Some n) (Some r) (Some p).

Definition well_formed (t : task) : bool :=
  match t with
  | mkTask (Some _) (Some _) (Some _) => true
  | _ => false
  end.

Definition name_of (t : task) : string :=
  match task_name t with Some n => n | None => "" end.

Definition resources_of (t : task) : list string :=
  match task_resources t with Some r => r | None => [] end.

Definition profit_of (t : task) : Q :=
  match task_profit t with Some p => p | None => 0%Q end.

(** Well-formed tasks with unique names. *)
Definition valid_tasks (tasks : list task) : Prop :=
  Forall (fun t => well_formed t = true) tasks /\ NoDup (map name_of tasks).

(** Two tasks share a resource. *)
Definition share_resource (t1 t2 : task) : Prop :=
  exists r, In r (resources_of t1) /\ In r (resources_of t2).

(** [G.nodes[v]["profit"]] *)
Definition node_profit (g : Graph) (v : string) : option Q :=
  dict_get (node_attrs g v) PROFIT_KEY.

(** No two nodes of [C] are adjacent. *)
Definition independent (g : Graph) (C : list string) : Prop :=
  forall a b, In a C -> In b C -> has_edge g a b = false.

(** ** Auxiliary notions of the proofs *)

(** The neighbours of a node, none for a node that is not in the graph. *)
Definition nbrs_of (g : Graph) (u : string) : list string :=
  match dict_get g u with
  | Some e => nbrs e
  | None => []
  end.

(** Every neighbour dict has each neighbour once. *)
Definition simple_nbrs (g : Graph) : Prop := forall u, NoDup (nbrs_of g u).

(** The value under a key, 0 for an absent key. *)
Definition dict_val (d : dict Q) (k : string) : Q :=
  match dict_get d k with Some x => x | None => 0%Q end.

(** What lines 107-109 do for a well-formed [t1] and well-formed [tasks]. *)
Definition conflicts_of (g : Graph) (t1 : task) (tasks : list task) : Graph :=
  fold_left
    (fun g t2 =>
       if are_incompatibles (resources_of t1) (resources_of t2)
       then add_edge g (name_of t1) (name_of t2) else g)
    tasks g.

(** What the [while] loop does on well-formed tasks. *)
Fixpoint build_of (g : Graph) (rev_tasks : list task) : Graph :=
  match rev_tasks with
  | [] => g
  | t1 :: rev_rest =>
      build_of
        (conflicts_of (add_node g (name_of t1) [(PROFIT_KEY, profit_of t1)])
                      t1 (rev rev_rest))
        rev_rest
  end.

(** Two tasks of the list, the first one popped before the second, use a
    common resource and are named [a] and [b], in either order. *)
Fixpoint linked (rev_tasks : list task) (a b : string) : Prop :=
  match rev_tasks with
  | [] => False
  | t1 :: rev_rest =>
      (exists t2, In t2 rev_rest
                  /\ are_incompatibles (resources_of t1) (resources_of t2) = true
                  /\ ((name_of t1 = a /\ name_of t2 = b)
                      \/ (name_of t2 = a /\ name_of t1 = b)))
      \/ linked rev_rest a b
  end.

(** The graph built from a list of well-formed tasks. *)
Definition conflict_graph (tasks : list task) : Graph :=
  build_of empty_graph (rev tasks).


(** The pool of a call: distinct nodes that have a weight. *)
Definition pool_ok (nw : dict Q) (P : list string) : Prop :=
  NoDup P /\ incl P (keys nw).

(** A candidate: pairwise non-adjacent, distinct nodes of the graph. *)
Definition candidate (g : Graph) (nw : dict Q) (C : list string) : Prop :=
  independent g C /\ NoDup C /\ incl C (keys nw).

(** The selector of a search on [g] whose incumbent and whose recorded
    calls are candidates. *)
Definition sound (g : Graph) (nw : dict Q) (s : MaxWeightTasksSelector) : Prop :=
  G s = g /\ node_weights s = nw
  /\ candidate g nw (incumbent_nodes s)
  /\ Forall (candidate g nw) (ghost_calls s).

(** The arguments of a call: the pool holds distinct nodes, none in [C]
    and none adjacent to a node of [C]. *)
Definition extends (g : Graph) (nw : dict Q)
  (C : list string) (w : Q) (P : list string) : Prop :=
  pool_ok nw P /\ candidate g nw C
  /\ (forall c p, In c C -> In p P -> c <> p /\ has_edge g c p = false).

(** ** Specification vocabulary *)

(** The task of the list that carries a name. *)
Definition task_named (tasks : list task) (n : string) : option task :=
  find (fun t => String.eqb (name_of t) n) tasks.

(** The summed profit of a schedule. *)
Definition schedule_profit (tasks : list task) (schedule : list string) : Q :=
  fold_right
    (fun n acc =>
       match task_named tasks n with
       | Some t => (profit_of t + acc)%Q
       | None => acc
       end)
    0%Q schedule.

(** No two tasks of the list share a resource. *)
Fixpoint pairwise_disjoint (ts : list task) : bool :=
  match ts with
  | [] => true
  | t :: ts' =>
      forallb (fun t' => negb (are_incompatibles (resources_of t) (resources_of t')))
              ts'
      && pairwise_disjoint ts'
  end.

Fixpoint subsets (A : Type) (l : list A) : list (list A) :=
  match l with
  | [] => [[]]
  | x :: l' => map (cons x) (subsets l') ++ subsets l'
  end.

Definition total_profit (ts : list task) : Q :=
  fold_right (fun t acc => (profit_of t + acc)%Q) 0%Q ts.

Definition Qmaxb (a b : Q) : Q := if Qgtb b a then b else a.

(** The best summed profit over the subsets with no shared resource, by
    exhaustive enumeration. *)
Definition best_disjoint_profit (tasks : list task) : Q :=
  fold_right Qmaxb 0%Q
    (map total_profit (filter pairwise_disjoint (subsets tasks))).

(** [s] occurs in [msg]. *)
Definition occurs_in (s msg : string) : Prop :=
  exists pre post, msg = String.append pre (String.append s post).

(** A rendering of task records for the concrete runs below, in the manner
    of Python's [str] on a dict; a profit is printed as a fraction. *)
Definition str_list (l : list string) : string :=
  String.append "[" (String.append (String.concat ", " (map repr l)) "]").

Definition str_Q (q : Q) : string :=
  String.append (NilZero.string_of_int (Z.to_int (Qnum q)))
    (String.append "/" (NilZero.string_of_uint (Pos.to_uint (Qden q)))).

Definition str_task (t : task) : string :=
  let field (A : Type) (k : string) (show : A -> string) (v : option A) :=
    match v with
    | Some a => [String.append (repr k) (String.append ": " (show a))]
    | None => []
    end in
  String.append "{"
    (String.append
       (String.concat ", "
          (field _ NAME_KEY repr (task_name t)
           ++ field _ RESOURCES_KEY str_list (task_resources t)
           ++ field _ PROFIT_KEY str_Q (task_profit t)))
       "}").

(** The scenario of the docstring of [from_tasks_to_graph]. *)
Definition scenario_tasks : list task :=
  [ T "t1" ["a"; "b"; "c"] (94 # 10);
    T "t2" ["a"; "d"] (14 # 10);
    T "t3" ["b"] (32 # 10);
    T "t4" ["c"; "d"] (63 # 10) ].

Definition scenario_edges : list (string * string) :=
  [("t1", "t2"); ("t1", "t3"); ("t1", "t4"); ("t2", "t4")].

(** Five tasks on which the inherited bound prunes the best schedule. *)
Definition pruned_tasks : list task :=
  [ T "t0" ["r01"] 1;
    T "t1" ["r01"] 2;
    T "t2" ["r23"; "r24"] 1;
    T "t3" ["r23"] 2;
    T "t4" ["r24"] 2 ].

(** The same five tasks in another order. *)
Definition pruned_tasks_reordered : list task :=
  [ T "t0" ["r01"] 1;
    T "t2" ["r23"; "r24"] 1;
    T "t3" ["r23"] 2;
    T "t1" ["r01"] 2;
    T "t4" ["r24"] 2 ].

(** A record without the [resources] key, followed by a well-formed one. *)
Definition no_resources_first : list task :=
  [ mkTask (Some "t1") None (Some 1); T "t2" ["a"] 2 ].

(** ** Vocabulary of the further properties *)

(** The record has the two keys read inside the [try] block. *)
Definition has_name_profit (t : task) : bool :=
  match task_name t, task_profit t with
  | Some _, Some _ => true
  | _, _ => false
  end.

(** The record has the [resources] key. *)
Definition has_resources (t : task) : bool :=
  match task_resources t with Some _ => true | None => false end.

(** The record has the [name] key. *)
Definition has_name (t : task) : bool :=
  match task_name t with Some _ => true | None => false end.

(** The summed weight of a list of nodes. *)
Definition weight_sum (nw : dict Q) (C : list string) : Q :=
  fold_right (fun v acc => (dict_val nw v + acc)%Q) 0%Q C.

(** The node has a positive weight. *)
Definition positive (nw : dict Q) (v : string) : Prop :=
  Qgtb (dict_val nw v) 0 = true.

(** The pool of the top-level call of [expand]: the nodes of positive
    weight, highest degree first. *)
Definition top_pool (g : Graph) (nw : dict Q) : list string :=
  filter (fun v => Qgtb (dict_val nw v) 0) (sorted_reverse (degree g) (nodes g)).

(** The selector of a search on [g] whose incumbent weight is the summed
    weight of its incumbent nodes, all of positive weight. *)
Definition accounted (g : Graph) (nw : dict Q) (s : MaxWeightTasksSelector) : Prop :=
  G s = g /\ node_weights s = nw
  /\ incumbent_weight s == weight_sum nw (incumbent_nodes s)
  /\ Forall (positive nw) (incumbent_nodes s).

(** The arguments of a call: [C_weight] is the summed weight of [C], and
    [C] and the pool hold nodes of positive weight. *)
Definition accounted_call (nw : dict Q) (C : list string) (w : Q) (P : list string)
  : Prop :=
  pool_ok nw P /\ w == weight_sum nw C
  /\ Forall (positive nw) C /\ Forall (positive nw) P.

(** ** tasks/models.py: the caching caller *)

(** The two JSON fields of a [TasksScheduler] row; [None] is SQL NULL. *)
Record TasksScheduler : Type := mkTasksScheduler {
  raw_tasks : option (list task);
  best_schedule : option (list string)
}.

(** [not x] for a field that is [None] or a list. *)
Definition falsy (A : Type) (x : option (list A)) : bool :=
  match x with
  | None => true
  | Some [] => true
  | Some (_ :: _) => false
  end.

Section Models.

(** What [json.loads(file.read())] gives for [tasks_file], or the error
    of opening or parsing it. *)
Variable read_tasks_file : result (list task).

(** [get_optimal_tasks_schedule], the name [models.py] imports from
    [tasks.scheduler]: the content of the list it is given afterwards, and
    its result. *)
Variable get_optimal_tasks_schedule
  : list task -> list task * result (list string).

(** [TasksScheduler.get_or_create_raw_tasks], lines 11-19.  The state is
    the object in memory and the row [save()] last wrote. *)
Definition get_or_create_raw_tasks (self row : TasksScheduler)
  : TasksScheduler * TasksScheduler * result (list task) :=
  if falsy (raw_tasks self) then
    let self := mkTasksScheduler (Some []) (best_schedule self) in
    match read_tasks_file with
    | Ok json_file =>
        let self := mkTasksScheduler (Some ([] ++ json_file)) (best_schedule self) in
        (self, self, Ok json_file)
    | Raise e => (self, row, Raise e)
    | OutOfFuel => (self, row, OutOfFuel)
    end
  else
    match raw_tasks self with
    | Some l => (self, row, Ok l)
    | None => (self, row, Ok [])
    end.

(** [TasksScheduler.get_or_create_best_schedule], lines 21-27.  The
    scheduler is handed [raw_tasks.copy()]: what it does to that list does
    not reach the field. *)
Definition get_or_create_best_schedule (self row : TasksScheduler)
  : TasksScheduler * TasksScheduler * result (list string) :=
  if falsy (best_schedule self) then
    match get_or_create_raw_tasks self row with
    | (self, row, Ok raw) =>
        let tasks := raw in
        match snd (get_optimal_tasks_schedule tasks) with
        | Ok schedule =>
            let self := mkTasksScheduler (raw_tasks self) (Some schedule) in
            (self, self, Ok schedule)
        | Raise e => (self, row, Raise e)
        | OutOfFuel => (self, row, OutOfFuel)
        end
    | (self, row, Raise e) => (self, row, Raise e)
    | (self, row, OutOfFuel) => (self, row, OutOfFuel)
    end
  else
    match best_schedule self with
    | Some l => (self, row, Ok l)
    | None => (self, row, Ok [])
    end.

End Models.

(** Two well-formed records with the same name. *)
Definition repeated_name_tasks : list task :=
  [ T "t1" ["a"] 5; T "t2" ["b"] 1; T "t1" ["c"] 7 ].

(** Three tasks that all use resource [a]. *)
Definition all_conflicting_tasks : list task :=
  [ T "t1" ["a"] 3; T "t2" ["a"; "b"] 4; T "t3" ["c"; "a"] 2 ].



(** ** Facts on dictionaries *)

Lemma dict_get_set_eq (V : Type) (d : dict V) k v :
  dict_get (dict_set d k v) k = Some v.
Proof.
  induction d as [|[k' v'] d IH]; simpl.
  - now rewrite String.eqb_refl.
  - destruct (String.eqb k' k) eqn:E; simpl.
    + now rewrite String.eqb_refl.
    + now rewrite E.
Qed.

Lemma dict_get_set_neq (V : Type) (d : dict V) k k' v :
  k <> k' -> dict_get (dict_set d k v) k' = dict_get d k'.
Proof.
  intros Hn. induction d as [|[k0 v0] d IH]; simpl.
  - apply String.eqb_neq in Hn. now rewrite Hn.
  - destruct (String.eqb k0 k) eqn:E; simpl.
    + apply String.eqb_eq in E. subst k0.
      apply String.eqb_neq in Hn. now rewrite Hn.
    + destruct (String.eqb k0 k'); auto.
Qed.

Lemma dict_get_set (V : Type) (d : dict V) k k' v :
  dict_get (dict_set d k v) k' =
  if String.eqb k k' then Some v else dict_get d k'.
Proof.
  destruct (String.eqb_spec k k') as [->|Hn].
  - apply dict_get_set_eq.
  - now apply dict_get_set_neq.
Qed.

Lemma dict_get_Some_In (V : Type) (d : dict V) k v :
  dict_get d k = Some v -> In k (keys d).
Proof.
  induction d as [|[k' v'] d IH]; simpl; [discriminate|].
  destruct (String.eqb_spec k' k); auto.
Qed.

Lemma dict_get_None_notin (V : Type) (d : dict V) k :
  dict_get d k = None -> ~ In k (keys d).
Proof.
  induction d as [|[k' v'] d IH]; simpl; auto.
  destruct (String.eqb_spec k' k); [discriminate|].
  intros H [E|HI]; [congruence|]. now apply IH.
Qed.

Lemma In_keys_dict_get (V : Type) (d : dict V) k :
  In k (keys d) -> exists v, dict_get d k = Some v.
Proof.
  intros HI. destruct (dict_get d k) eqn:E; eauto.
  now apply dict_get_None_notin in E.
Qed.

Lemma keys_set_present (V : Type) (d : dict V) k v :
  In k (keys d) -> keys (dict_set d k v) = keys d.
Proof.
  induction d as [|[k' v'] d IH]; simpl; [tauto|].
  intros HI. destruct (String.eqb_spec k' k) as [->|Hn]; simpl; auto.
  f_equal. apply IH. destruct HI; [congruence|auto].
Qed.

Lemma keys_set_absent (V : Type) (d : dict V) k v :
  ~ In k (keys d) -> keys (dict_set d k v) = keys d ++ [k].
Proof.
  induction d as [|[k' v'] d IH]; simpl; auto.
  intros HI. destruct (String.eqb_spec k' k) as [->|Hn]; simpl.
  - tauto.
  - f_equal. apply IH. tauto.
Qed.

Lemma keys_set_cases (V : Type) (d : dict V) k v :
  (In k (keys d) /\ keys (dict_set d k v) = keys d)
  \/ (~ In k (keys d) /\ keys (dict_set d k v) = keys d ++ [k]).
Proof.
  destruct (in_dec string_dec k (keys d)) as [HI|HI].
  - left. split; auto. now apply keys_set_present.
  - right. split; auto. now apply keys_set_absent.
Qed.

Lemma keys_set_In (V : Type) (d : dict V) k v x :
  In x (keys (dict_set d k v)) <-> In x (keys d) \/ x = k.
Proof.
  destruct (keys_set_cases d k v) as [[HI ->]|[HI ->]].
  - split; [auto|]. intros [H| ->]; auto.
  - rewrite in_app_iff. simpl. intuition.
Qed.

Lemma keys_set_NoDup (V : Type) (d : dict V) k v :
  NoDup (keys d) -> NoDup (keys (dict_set d k v)).
Proof.
  intros HN. destruct (keys_set_cases d k v) as [[HI ->]|[HI ->]]; auto.
  apply NoDup_app; auto.
  - repeat constructor. simpl. tauto.
  - intros x Hx Hk. simpl in Hk. destruct Hk as [<-|Hk]; tauto.
Qed.

Lemma contains_In l x : contains l x = true <-> In x l.
Proof.
  unfold contains. rewrite existsb_exists. split.
  - intros (y & HI & E). apply String.eqb_eq in E. now subst.
  - intros HI. exists x. split; auto. apply String.eqb_refl.
Qed.

Lemma contains_false l x : contains l x = false <-> ~ In x l.
Proof.
  rewrite <- contains_In. destruct (contains l x); split; congruence.
Qed.

(** ** Facts on the graph operations *)

Lemma has_edge_nbrs_of g u v : has_edge g u v = contains (nbrs_of g u) v.
Proof. unfold has_edge, nbrs_of. now destruct (dict_get g u). Qed.

Lemma nbrs_of_add_node g n attr m :
  nbrs_of (add_node g n attr) m = nbrs_of g m.
Proof.
  unfold nbrs_of, add_node.
  destruct (dict_get g n) as [e|] eqn:E; rewrite dict_get_set;
    destruct (String.eqb_spec n m) as [<-|Hn]; auto; now rewrite E.
Qed.

Lemma node_attrs_add_node g n attr m :
  node_attrs (add_node g n attr) m =
  if String.eqb n m then dict_update (node_attrs g n) attr else node_attrs g m.
Proof.
  unfold node_attrs, add_node.
  destruct (dict_get g n) as [e|] eqn:E; rewrite dict_get_set;
    destruct (String.eqb_spec n m) as [<-|Hn]; auto.
Qed.

Lemma nodes_add_node g n attr x :
  In x (nodes (add_node g n attr)) <-> In x (nodes g) \/ x = n.
Proof.
  unfold nodes, add_node. destruct (dict_get g n); apply keys_set_In.
Qed.

Lemma nodes_add_node_NoDup g n attr :
  NoDup (nodes g) -> NoDup (nodes (add_node g n attr)).
Proof.
  unfold nodes, add_node. destruct (dict_get g n); apply keys_set_NoDup.
Qed.

Lemma nbrs_of_ensure_node g n m : nbrs_of (ensure_node g n) m = nbrs_of g m.
Proof.
  unfold nbrs_of, ensure_node.
  destruct (dict_get g n) as [e|] eqn:E; auto.
  rewrite dict_get_set. destruct (String.eqb_spec n m) as [<-|Hn]; auto.
  now rewrite E.
Qed.

Lemma node_attrs_ensure_node g n m :
  node_attrs (ensure_node g n) m = node_attrs g m.
Proof.
  unfold node_attrs, ensure_node.
  destruct (dict_get g n) as [e|] eqn:E; auto.
  rewrite dict_get_set. destruct (String.eqb_spec n m) as [<-|Hn]; auto.
  now rewrite E.
Qed.

Lemma nodes_ensure_node g n x :
  In x (nodes (ensure_node g n)) <-> In x (nodes g) \/ x = n.
Proof.
  unfold nodes, ensure_node. destruct (dict_get g n) as [e|] eqn:E.
  - split; auto. intros [H| ->]; auto. eapply dict_get_Some_In; eauto.
  - apply keys_set_In.
Qed.

Lemma nodes_ensure_node_NoDup g n :
  NoDup (nodes g) -> NoDup (nodes (ensure_node g n)).
Proof.
  unfold nodes, ensure_node. destruct (dict_get g n); auto.
  apply keys_set_NoDup.
Qed.

Lemma nodes_add_nbr g u v : nodes (add_nbr g u v) = nodes g.
Proof.
  unfold nodes, add_nbr. destruct (dict_get g u) eqn:E; auto.
  apply keys_set_present. eapply dict_get_Some_In; eauto.
Qed.

Lemma node_attrs_add_nbr g u v m : node_attrs (add_nbr g u v) m = node_attrs g m.
Proof.
  unfold node_attrs, add_nbr. destruct (dict_get g u) as [e|] eqn:E; auto.
  rewrite dict_get_set. destruct (String.eqb_spec u m) as [<-|Hn]; auto.
  now rewrite E.
Qed.

Lemma nbrs_of_add_nbr g u v m :
  In u (nodes g) ->
  nbrs_of (add_nbr g u v) m =
  if String.eqb u m
  then (if contains (nbrs_of g u) v then nbrs_of g u else nbrs_of g u ++ [v])
  else nbrs_of g m.
Proof.
  intros HI. apply In_keys_dict_get in HI. destruct HI as [e E].
  unfold nbrs_of, add_nbr. rewrite E, dict_get_set.
  destruct (String.eqb_spec u m) as [<-|Hn]; auto.
Qed.

Lemma contains_set_add l v b :
  contains (if contains l v then l else l ++ [v]) b
  = contains l b || String.eqb v b.
Proof.
  destruct (contains l v) eqn:E.
  - destruct (String.eqb_spec v b) as [<-|Hn].
    + rewrite E. reflexivity.
    + now rewrite orb_false_r.
  - unfold contains. rewrite existsb_app. simpl.
    now rewrite orb_false_r, (String.eqb_sym b v).
Qed.

Lemma has_edge_add_node g n attr a b :
  has_edge (add_node g n attr) a b = has_edge g a b.
Proof. now rewrite !has_edge_nbrs_of, nbrs_of_add_node. Qed.

Lemma nodes_add_edge g u v x :
  In x (nodes (add_edge g u v)) <-> In x (nodes g) \/ x = u \/ x = v.
Proof.
  unfold add_edge. rewrite !nodes_add_nbr, !nodes_ensure_node. tauto.
Qed.

Lemma nodes_add_edge_NoDup g u v :
  NoDup (nodes g) -> NoDup (nodes (add_edge g u v)).
Proof.
  intros H. unfold add_edge. rewrite !nodes_add_nbr.
  now apply nodes_ensure_node_NoDup, nodes_ensure_node_NoDup.
Qed.

Lemma node_attrs_add_edge g u v m :
  node_attrs (add_edge g u v) m = node_attrs g m.
Proof.
  unfold add_edge. now rewrite !node_attrs_add_nbr, !node_attrs_ensure_node.
Qed.

Lemma has_edge_add_edge g u v a b :
  has_edge (add_edge g u v) a b
  = has_edge g a b
    || (String.eqb u a && String.eqb v b)
    || (String.eqb v a && String.eqb u b).
Proof.
  rewrite !has_edge_nbrs_of. unfold add_edge.
  set (g2 := ensure_node (ensure_node g u) v).
  assert (Hu : In u (nodes g2)).
  { unfold g2. rewrite !nodes_ensure_node. auto. }
  assert (Hv : In v (nodes (add_nbr g2 u v))).
  { rewrite nodes_add_nbr. unfold g2. rewrite !nodes_ensure_node. auto. }
  assert (E2 : forall m, nbrs_of g2 m = nbrs_of g m).
  { intros m. unfold g2. now rewrite !nbrs_of_ensure_node. }
  rewrite nbrs_of_add_nbr by exact Hv.
  destruct (String.eqb_spec v a) as [->|Hva].
  - rewrite contains_set_add, nbrs_of_add_nbr by exact Hu.
    destruct (String.eqb_spec u a) as [->|Hua].
    + rewrite contains_set_add, E2.
      destruct (contains (nbrs_of g a) b), (String.eqb a b); reflexivity.
    + rewrite E2. simpl.
      destruct (contains (nbrs_of g a) b), (String.eqb u b); reflexivity.
  - rewrite nbrs_of_add_nbr by exact Hu.
    destruct (String.eqb_spec u a) as [->|Hua].
    + rewrite contains_set_add, E2. simpl. now rewrite orb_false_r.
    + rewrite E2. simpl. now rewrite !orb_false_r.
Qed.

Lemma simple_nbrs_add_nbr g u v :
  In u (nodes g) -> simple_nbrs g -> simple_nbrs (add_nbr g u v).
Proof.
  intros HI Hs m. rewrite nbrs_of_add_nbr by exact HI.
  destruct (String.eqb u m); auto.
  destruct (contains (nbrs_of g u) v) eqn:E; auto.
  apply contains_false in E. apply NoDup_app; auto.
  - repeat constructor. simpl. tauto.
  - intros x Hx Hk. simpl in Hk. destruct Hk as [<-|Hk]; tauto.
Qed.

Lemma simple_nbrs_add_edge g u v : simple_nbrs g -> simple_nbrs (add_edge g u v).
Proof.
  intros Hs. unfold add_edge.
  apply simple_nbrs_add_nbr.
  { rewrite nodes_add_nbr, !nodes_ensure_node. auto. }
  apply simple_nbrs_add_nbr.
  { rewrite !nodes_ensure_node. auto. }
  intros m. now rewrite !nbrs_of_ensure_node.
Qed.

Lemma simple_nbrs_add_node g n attr : simple_nbrs g -> simple_nbrs (add_node g n attr).
Proof. intros Hs m. now rewrite nbrs_of_add_node. Qed.

(** ** The conflict graph of well-formed tasks *)

Lemma are_incompatibles_share r1 r2 :
  are_incompatibles r1 r2 = true <-> exists x, In x r1 /\ In x r2.
Proof.
  unfold are_incompatibles. rewrite orb_true_iff, !existsb_exists. split.
  - intros [(x & H1 & H2)|(x & H1 & H2)]; apply contains_In in H2; eauto.
  - intros (x & H1 & H2). left. exists x. split; auto. now apply contains_In.
Qed.

Lemma are_incompatibles_sym r1 r2 :
  are_incompatibles r1 r2 = are_incompatibles r2 r1.
Proof. unfold are_incompatibles. apply orb_comm. Qed.

Lemma well_formed_T t :
  well_formed t = true -> t = T (name_of t) (resources_of t) (profit_of t).
Proof.
  destruct t as [[n|] [r|] [p|]]; simpl; try discriminate. reflexivity.
Qed.

Lemma conflicts_of_cons g t1 t2 tasks :
  conflicts_of g t1 (t2 :: tasks)
  = conflicts_of
      (if are_incompatibles (resources_of t1) (resources_of t2)
       then add_edge g (name_of t1) (name_of t2) else g)
      t1 tasks.
Proof. reflexivity. Qed.

Section BuilderFacts.

Variable str : task -> string.

Lemma add_conflicts_wf g t1 tasks :
  well_formed t1 = true ->
  Forall (fun t => well_formed t = true) tasks ->
  add_conflicts g t1 tasks = Ok (conflicts_of g t1 tasks).
Proof.
  intros H1 Hall. destruct t1 as [[n1|] [r1|] [p1|]]; try discriminate.
  revert g. induction Hall as [|t2 tasks H2 Hall IH]; intros g.
  - reflexivity.
  - destruct t2 as [[n2|] [r2|] [p2|]]; try discriminate.
    rewrite conflicts_of_cons. cbn.
    destruct (are_incompatibles r1 r2); apply IH.
Qed.

Lemma try_add_node_wf g t1 :
  well_formed t1 = true ->
  try_add_node str g t1
  = Ok (add_node g (name_of t1) [(PROFIT_KEY, profit_of t1)]).
Proof. intros H1. rewrite (well_formed_T _ H1). reflexivity. Qed.

Lemma build_loop_wf rev_tasks :
  Forall (fun t => well_formed t = true) rev_tasks ->
  forall g, build_loop str g rev_tasks = ([], Ok (build_of g rev_tasks)).
Proof.
  induction 1 as [|t1 rest H1 Hall IH]; intros g.
  - reflexivity.
  - simpl. rewrite try_add_node_wf by exact H1.
    rewrite add_conflicts_wf; auto.
    apply Forall_rev. exact Hall.
Qed.

Lemma from_tasks_to_graph_wf tasks :
  Forall (fun t => well_formed t = true) tasks ->
  from_tasks_to_graph str tasks = ([], Ok (build_of empty_graph (rev tasks))).
Proof.
  intros H. unfold from_tasks_to_graph. apply build_loop_wf.
  now apply Forall_rev.
Qed.

End BuilderFacts.

Lemma conflicts_of_has_edge t1 tasks a b : forall g,
  has_edge (conflicts_of g t1 tasks) a b = true <->
  has_edge g a b = true
  \/ exists t2, In t2 tasks
                /\ are_incompatibles (resources_of t1) (resources_of t2) = true
                /\ ((name_of t1 = a /\ name_of t2 = b)
                    \/ (name_of t2 = a /\ name_of t1 = b)).
Proof.
  induction tasks as [|t2 tasks IH]; intros g.
  - simpl. split; auto. intros [H|(t2 & [] & _)]. exact H.
  - rewrite conflicts_of_cons, IH. clear IH.
    destruct (are_incompatibles (resources_of t1) (resources_of t2)) eqn:E.
    + rewrite has_edge_add_edge, !orb_true_iff, !andb_true_iff, !String.eqb_eq.
      split.
      * intros [[[H|H]|H]|(t & HI & Ht)]; auto.
        -- right. exists t2. simpl. auto.
        -- right. exists t2. simpl. auto.
        -- right. exists t. simpl. auto.
      * intros [H|(t & [<-|HI] & Ht & Hn)]; auto.
        -- left. tauto.
        -- right. exists t. auto.
    + split.
      * intros [H|(t & HI & Ht)]; auto. right. exists t. simpl. auto.
      * intros [H|(t & [<-|HI] & Ht & Hn)]; auto; [congruence|].
        right. exists t. auto.
Qed.

Lemma conflicts_of_nodes t1 tasks x : forall g,
  In x (nodes (conflicts_of g t1 tasks)) ->
  In x (nodes g) \/ x = name_of t1 \/ In x (map name_of tasks).
Proof.
  induction tasks as [|t2 tasks IH]; intros g; [simpl; auto|].
  rewrite conflicts_of_cons. intros H. apply IH in H. simpl.
  destruct (are_incompatibles (resources_of t1) (resources_of t2)).
  - rewrite nodes_add_edge in H. intuition.
  - intuition.
Qed.

Lemma conflicts_of_nodes_mono t1 tasks x : forall g,
  In x (nodes g) -> In x (nodes (conflicts_of g t1 tasks)).
Proof.
  induction tasks as [|t2 tasks IH]; intros g H; [simpl; auto|].
  rewrite conflicts_of_cons. apply IH.
  destruct (are_incompatibles (resources_of t1) (resources_of t2)); auto.
  rewrite nodes_add_edge. auto.
Qed.

Lemma conflicts_of_NoDup t1 tasks : forall g,
  NoDup (nodes g) -> NoDup (nodes (conflicts_of g t1 tasks)).
Proof.
  induction tasks as [|t2 tasks IH]; intros g H; [simpl; auto|].
  rewrite conflicts_of_cons. apply IH.
  destruct (are_incompatibles (resources_of t1) (resources_of t2)); auto.
  now apply nodes_add_edge_NoDup.
Qed.

Lemma conflicts_of_simple t1 tasks : forall g,
  simple_nbrs g -> simple_nbrs (conflicts_of g t1 tasks).
Proof.
  induction tasks as [|t2 tasks IH]; intros g H; [simpl; auto|].
  rewrite conflicts_of_cons. apply IH.
  destruct (are_incompatibles (resources_of t1) (resources_of t2)); auto.
  now apply simple_nbrs_add_edge.
Qed.

Lemma conflicts_of_attrs t1 tasks m : forall g,
  node_attrs (conflicts_of g t1 tasks) m = node_attrs g m.
Proof.
  induction tasks as [|t2 tasks IH]; intros g; [simpl; auto|].
  rewrite conflicts_of_cons, IH.
  destruct (are_incompatibles (resources_of t1) (resources_of t2)); auto.
  apply node_attrs_add_edge.
Qed.

Lemma build_of_has_edge rev_tasks a b : forall g,
  has_edge (build_of g rev_tasks) a b = true <->
  has_edge g a b = true \/ linked rev_tasks a b.
Proof.
  induction rev_tasks as [|t1 rest IH]; intros g; simpl.
  - tauto.
  - rewrite IH, conflicts_of_has_edge, has_edge_add_node. split.
    + intros [[H|(t2 & HI & Ht)]|H]; auto.
      right. left. exists t2. rewrite <- in_rev in HI. auto.
    + intros [H|[(t2 & HI & Ht)|H]]; auto.
      left. right. exists t2. rewrite <- in_rev. auto.
Qed.

Lemma build_of_nodes rev_tasks x : forall g,
  In x (nodes (build_of g rev_tasks)) ->
  In x (nodes g) \/ In x (map name_of rev_tasks).
Proof.
  induction rev_tasks as [|t1 rest IH]; intros g; simpl; auto.
  intros H. apply IH in H. destruct H as [H|H]; auto.
  apply conflicts_of_nodes in H. rewrite nodes_add_node in H.
  rewrite map_rev, <- in_rev in H. intuition.
Qed.

Lemma build_of_nodes_mono rev_tasks x : forall g,
  In x (nodes g) -> In x (nodes (build_of g rev_tasks)).
Proof.
  induction rev_tasks as [|t1 rest IH]; intros g H; simpl; auto.
  apply IH, conflicts_of_nodes_mono. rewrite nodes_add_node. auto.
Qed.

Lemma build_of_nodes_names rev_tasks t : forall g,
  In t rev_tasks -> In (name_of t) (nodes (build_of g rev_tasks)).
Proof.
  induction rev_tasks as [|t1 rest IH]; intros g; simpl; [tauto|].
  intros [<-|H]; auto.
  apply build_of_nodes_mono, conflicts_of_nodes_mono.
  rewrite nodes_add_node. auto.
Qed.

Lemma build_of_NoDup rev_tasks : forall g,
  NoDup (nodes g) -> NoDup (nodes (build_of g rev_tasks)).
Proof.
  induction rev_tasks as [|t1 rest IH]; intros g H; simpl; auto.
  now apply IH, conflicts_of_NoDup, nodes_add_node_NoDup.
Qed.

Lemma build_of_simple rev_tasks : forall g,
  simple_nbrs g -> simple_nbrs (build_of g rev_tasks).
Proof.
  induction rev_tasks as [|t1 rest IH]; intros g H; simpl; auto.
  now apply IH, conflicts_of_simple, simple_nbrs_add_node.
Qed.

Lemma build_of_attrs_other rev_tasks n : forall g,
  ~ In n (map name_of rev_tasks) ->
  node_attrs (build_of g rev_tasks) n = node_attrs g n.
Proof.
  induction rev_tasks as [|t1 rest IH]; intros g H; simpl in *; auto.
  rewrite IH by tauto. rewrite conflicts_of_attrs, node_attrs_add_node.
  destruct (String.eqb_spec (name_of t1) n); tauto.
Qed.

Lemma build_of_profit rev_tasks t : forall g,
  NoDup (map name_of rev_tasks) -> In t rev_tasks ->
  node_profit (build_of g rev_tasks) (name_of t) = Some (profit_of t).
Proof.
  unfold node_profit.
  induction rev_tasks as [|t1 rest IH]; intros g HN HI; simpl in *; [tauto|].
  inversion HN as [|? ? Hnotin HN']; subst.
  destruct HI as [->|HI].
  - rewrite build_of_attrs_other by exact Hnotin.
    rewrite conflicts_of_attrs, node_attrs_add_node, String.eqb_refl.
    unfold dict_update. simpl. apply dict_get_set_eq.
  - now apply IH.
Qed.

Lemma linked_sym rev_tasks a b : linked rev_tasks a b -> linked rev_tasks b a.
Proof.
  induction rev_tasks as [|t1 rest IH]; simpl; auto.
  intros [(t2 & HI & Ht & Hn)|H]; auto.
  left. exists t2. tauto.
Qed.

Lemma linked_iff rev_tasks a b :
  NoDup (map name_of rev_tasks) ->
  linked rev_tasks a b <->
  exists t1 t2, In t1 rev_tasks /\ In t2 rev_tasks
                /\ name_of t1 = a /\ name_of t2 = b /\ a <> b
                /\ are_incompatibles (resources_of t1) (resources_of t2) = true.
Proof.
  induction rev_tasks as [|t rest IH]; intros HN; simpl.
  - split; [tauto|]. intros (t1 & t2 & [] & _).
  - inversion HN as [|? ? Hnotin HN']; subst.
    assert (Hne : forall t2, In t2 rest -> name_of t <> name_of t2).
    { intros t2 HI E. apply Hnotin. rewrite E. now apply in_map. }
    rewrite (IH HN'). clear IH. split.
    + intros [(t2 & HI & Ht & [[Ea Eb]|[Ea Eb]])|(t1 & t2 & H1 & H2 & H)].
      * exists t, t2. subst. repeat split; auto.
      * exists t2, t. subst. repeat split; auto.
        -- intros E. now apply (Hne t2).
        -- now rewrite are_incompatibles_sym.
      * exists t1, t2. tauto.
    + intros (t1 & t2 & [<-|H1] & [<-|H2] & Ea & Eb & Hab & Hi).
      * congruence.
      * left. exists t2. auto.
      * left. exists t1. rewrite are_incompatibles_sym. auto.
      * right. exists t1, t2. repeat split; assumption.
Qed.

Lemma conflict_graph_nodes tasks :
  NoDup (map name_of tasks) ->
  Permutation (nodes (conflict_graph tasks)) (map name_of tasks).
Proof.
  intros HN. apply NoDup_Permutation; auto.
  - apply build_of_NoDup. constructor.
  - intros x. split.
    + intros H. apply build_of_nodes in H. destruct H as [[]|H].
      now rewrite map_rev, <- in_rev in H.
    + intros H. apply in_map_iff in H. destruct H as (t & <- & HI).
      apply build_of_nodes_names. now rewrite <- in_rev.
Qed.

Lemma conflict_graph_NoDup tasks : NoDup (nodes (conflict_graph tasks)).
Proof. apply build_of_NoDup. constructor. Qed.

Lemma conflict_graph_profit tasks t :
  NoDup (map name_of tasks) -> In t tasks ->
  node_profit (conflict_graph tasks) (name_of t) = Some (profit_of t).
Proof.
  intros HN HI. apply build_of_profit.
  - rewrite map_rev. now apply NoDup_rev.
  - now rewrite <- in_rev.
Qed.

Lemma conflict_graph_has_edge tasks a b :
  NoDup (map name_of tasks) ->
  has_edge (conflict_graph tasks) a b = true <->
  exists t1 t2, In t1 tasks /\ In t2 tasks
                /\ name_of t1 = a /\ name_of t2 = b /\ a <> b
                /\ are_incompatibles (resources_of t1) (resources_of t2) = true.
Proof.
  intros HN. unfold conflict_graph. rewrite build_of_has_edge, linked_iff.
  - split.
    + intros [H|(t1 & t2 & H1 & H2 & H)]; [discriminate|].
      exists t1, t2. rewrite <- !in_rev in *. tauto.
    + intros (t1 & t2 & H1 & H2 & H). right.
      exists t1, t2. rewrite <- !in_rev. tauto.
  - rewrite map_rev. now apply NoDup_rev.
Qed.

Lemma conflict_graph_sym tasks a b :
  has_edge (conflict_graph tasks) a b = has_edge (conflict_graph tasks) b a.
Proof.
  apply eq_true_iff_eq. unfold conflict_graph. rewrite !build_of_has_edge.
  split; (intros [H|H]; [discriminate|right; now apply linked_sym]).
Qed.

Lemma conflict_graph_irrefl tasks a :
  NoDup (map name_of tasks) -> has_edge (conflict_graph tasks) a a = false.
Proof.
  intros HN. apply not_true_is_false. rewrite conflict_graph_has_edge by exact HN.
  intros (t1 & t2 & _ & _ & _ & _ & H & _). congruence.
Qed.

Lemma conflict_graph_simple tasks : simple_nbrs (conflict_graph tasks).
Proof. apply build_of_simple. intros u. constructor. Qed.

(** ** Facts on the monadic list operations *)

Lemma mapM_ok (A B : Type) (f : A -> result B) (h : A -> B) l :
  (forall x, In x l -> f x = Ok (h x)) -> mapM f l = Ok (map h l).
Proof.
  induction l as [|x l IH]; intros H; simpl; auto.
  rewrite (H x) by (simpl; auto). simpl.
  rewrite IH by (intros y Hy; apply H; simpl; auto). reflexivity.
Qed.

Lemma filterM_ok (A : Type) (f : A -> result bool) (p : A -> bool) l :
  (forall x, In x l -> f x = Ok (p x)) -> filterM f l = Ok (filter p l).
Proof.
  induction l as [|x l IH]; intros H; simpl; auto.
  rewrite (H x) by (simpl; auto). simpl.
  rewrite IH by (intros y Hy; apply H; simpl; auto). reflexivity.
Qed.

Lemma filter_filter_and (A : Type) (p q : A -> bool) l :
  filter q (filter p l) = filter (fun x => p x && q x) l.
Proof.
  induction l as [|x l IH]; simpl; auto.
  destruct (p x); simpl; [destruct (q x)|]; now rewrite IH.
Qed.

Lemma filter_length_lt (A : Type) (p : A -> bool) l x :
  In x l -> p x = false -> (List.length (filter p l) < List.length l)%nat.
Proof.
  induction l as [|y l IH]; simpl; [tauto|].
  intros [->|HI] Hp.
  - rewrite Hp. pose proof (filter_length_le p l). lia.
  - specialize (IH HI Hp). destruct (p y); simpl; lia.
Qed.

Lemma getitem_val (d : dict Q) k : In k (keys d) -> getitem d k = Ok (dict_val d k).
Proof.
  intros H. apply In_keys_dict_get in H. destruct H as [x E].
  unfold getitem, dict_val. now rewrite E.
Qed.

Lemma dict_comp_loop_keys (f : string -> result Q) vs : forall d0 d,
  foldM (fun d v => x <- f v ;; Ok (dict_set d v x)) vs d0 = Ok d ->
  forall x, In x (keys d) <-> In x (keys d0) \/ In x vs.
Proof.
  induction vs as [|v vs IH]; intros d0 d H x; simpl in *.
  - inversion H; subst. tauto.
  - destruct (f v) as [y| |]; simpl in H; try discriminate.
    rewrite (IH _ _ H), keys_set_In. intuition.
Qed.

Lemma dict_comp_loop_ok (f : string -> result Q) vs :
  (forall v, In v vs -> exists x, f v = Ok x) ->
  forall d0, exists d,
    foldM (fun d v => x <- f v ;; Ok (dict_set d v x)) vs d0 = Ok d.
Proof.
  induction vs as [|v vs IH]; intros H d0; simpl.
  - eauto.
  - destruct (H v) as [x E]; simpl; auto. rewrite E. simpl.
    apply IH. intros w Hw. apply H. simpl. auto.
Qed.

Lemma dict_comp_keys f vs d :
  dict_comp f vs = Ok d -> forall x, In x (keys d) <-> In x vs.
Proof.
  intros H x. unfold dict_comp in H.
  rewrite (dict_comp_loop_keys _ _ _ H). simpl. tauto.
Qed.

Lemma dict_comp_ok f vs :
  (forall v, In v vs -> exists x, f v = Ok x) -> exists d, dict_comp f vs = Ok d.
Proof. intros H. now apply dict_comp_loop_ok. Qed.

Lemma list_remove_ok P v :
  In v P -> NoDup P ->
  exists P', list_remove P v = Ok P'
             /\ NoDup P' /\ ~ In v P'
             /\ (forall x, In x P' <-> In x P /\ x <> v)
             /\ List.length P = S (List.length P').
Proof.
  induction P as [|y P IH]; simpl; [tauto|].
  intros HI HN. inversion HN as [|? ? Hy HN']; subst.
  destruct (String.eqb_spec y v) as [->|Hn].
  - exists P. split; [reflexivity|]. split; [exact HN'|]. split; [exact Hy|].
    split; [|reflexivity].
    intros x. split.
    + intros Hx. split; auto. intros ->. tauto.
    + intros [[<-|Hx] Hne]; tauto.
  - destruct HI as [E|HI]; [congruence|].
    destruct (IH HI HN') as (P' & E & HN1 & Hv & Hin & Hlen).
    exists (y :: P'). rewrite E. simpl.
    split; [reflexivity|]. split; [|split; [|split]].
    + constructor; auto. rewrite Hin. tauto.
    + intros [E'|H']; [congruence|tauto].
    + intros x. rewrite Hin. split.
      * intros [<-|Hx]; [auto|tauto].
      * intros [[<-|Hx] Hne]; auto.
    + lia.
Qed.

Lemma insert_desc_perm key x l : Permutation (insert_desc key x l) (x :: l).
Proof.
  induction l as [|y l IH]; simpl; auto.
  destruct (Nat.leb (key y) (key x)); auto.
  rewrite IH. apply perm_swap.
Qed.

Lemma sorted_reverse_perm key l : Permutation (sorted_reverse key l) l.
Proof.
  induction l as [|x l IH]; simpl; auto.
  rewrite insert_desc_perm. now constructor.
Qed.

(** ** Facts on the inherited bound *)

Lemma greedy_loop_incl fuel g : forall P x,
  In x (greedy_loop fuel g P) -> In x P.
Proof.
  induction fuel as [|fuel IH]; intros P x; destruct P as [|v P]; simpl;
    try tauto.
  destruct (String.eqb_spec v v) as [_|Hn]; [|congruence]. simpl.
  intros [E|H]; auto.
  apply IH in H. apply filter_In in H. tauto.
Qed.

Lemma greedy_loop_NoDup fuel g : forall P, NoDup (greedy_loop fuel g P).
Proof.
  induction fuel as [|fuel IH]; intros P; destruct P as [|v P]; simpl;
    try constructor; auto.
  intros H. apply greedy_loop_incl in H.
  rewrite String.eqb_refl in H. simpl in H. apply filter_In in H.
  destruct H as [_ H]. rewrite String.eqb_refl in H. discriminate.
Qed.

Lemma greedy_head s v P :
  exists I, greedily_find_independent_set s (v :: P) = v :: I.
Proof. unfold greedily_find_independent_set. simpl. eauto. Qed.

Lemma greedy_incl s P x : In x (greedily_find_independent_set s P) -> In x P.
Proof. apply greedy_loop_incl. Qed.

Lemma greedy_NoDup s P : NoDup (greedily_find_independent_set s P).
Proof. apply greedy_loop_NoDup. Qed.

Lemma min_from_In l : forall m, min_from m l = m \/ In (min_from m l) l.
Proof.
  induction l as [|x l IH]; intros m; simpl; auto.
  destruct (Qgtb m x).
  - destruct (IH x); auto.
  - destruct (IH m); auto.
Qed.

Lemma py_min_In l m : py_min l = Ok m -> In m l.
Proof.
  destruct l as [|x l]; simpl; [discriminate|].
  intros H. inversion H; subst. destruct (min_from_In l x) as [->|]; auto.
Qed.

Lemma filter_all (A : Type) (l : list A) : filter (fun _ => true) l = l.
Proof. induction l as [|x l IH]; simpl; congruence. Qed.

Lemma dict_val_set d k k' x :
  dict_val (dict_set d k x) k' = if String.eqb k k' then x else dict_val d k'.
Proof.
  unfold dict_val. rewrite dict_get_set. now destruct (String.eqb k k').
Qed.

(** The loop that lowers the residual weights of one class by [m]. *)
Lemma lower_residuals_ok (m : Q) I : forall r,
  NoDup I -> incl I (keys r) ->
  exists r',
    foldM (fun r v => x <- getitem r v ;; Ok (dict_set r v (x - m)%Q)) I r = Ok r'
    /\ (forall x, In x (keys r') <-> In x (keys r))
    /\ (forall v, In v I -> dict_val r' v = (dict_val r v - m)%Q)
    /\ (forall v, ~ In v I -> dict_val r' v = dict_val r v).
Proof.
  induction I as [|v I IH]; intros r HN Hincl.
  - exists r. simpl. repeat split; tauto.
  - inversion HN as [|? ? Hv HN']; subst.
    assert (Hk : In v (keys r)) by (apply Hincl; simpl; auto).
    simpl. rewrite (getitem_val _ _ Hk). simpl.
    set (r1 := dict_set r v (dict_val r v - m)%Q).
    assert (Hkeys1 : forall x, In x (keys r1) <-> In x (keys r)).
    { intros x. unfold r1. rewrite keys_set_In. split; [|auto].
      intros [H| ->]; auto. }
    destruct (IH r1 HN') as (r' & E & Hkeys & Hin & Hout).
    { intros x Hx. apply Hkeys1, Hincl. simpl. auto. }
    exists r'. split; [exact E|]. split; [|split].
    + intros x. now rewrite Hkeys, Hkeys1.
    + intros w [<-|Hw].
      * rewrite (Hout _ Hv). unfold r1. now rewrite dict_val_set, String.eqb_refl.
      * rewrite (Hin _ Hw). unfold r1. rewrite dict_val_set.
        destruct (String.eqb_spec v w) as [->|Hn]; [tauto|reflexivity].
    + intros w Hw. simpl in Hw. rewrite Hout by tauto.
      unfold r1. rewrite dict_val_set.
      destruct (String.eqb_spec v w) as [->|Hn]; [tauto|reflexivity].
Qed.

Lemma Qeq_bool_minus_self (m : Q) : Qeq_bool (m - m) 0 = true.
Proof. apply Qeq_bool_iff. unfold Qminus. apply Qplus_opp_r. Qed.

(** The loop of [find_branching_nodes] ends, raises nothing and answers
    with part of the pool, in the pool's order. *)
Lemma branching_loop_ok s target fuel : forall residual_wt total_wt P,
  incl P (keys residual_wt) -> (List.length P <= fuel)%nat ->
  exists p, branching_loop fuel s residual_wt total_wt target P = Ok (filter p P).
Proof.
  induction fuel as [|fuel IH]; intros r total P Hincl Hlen.
  - destruct P; [|simpl in Hlen; lia]. exists (fun _ => true). reflexivity.
  - destruct P as [|v0 P0]; [exists (fun _ => true); reflexivity|].
    set (P := v0 :: P0) in *.
    assert (HI : incl (greedily_find_independent_set s P) (keys r)).
    { intros x Hx. apply Hincl. eapply greedy_incl; eauto. }
    destruct (greedy_head s v0 P0) as [I' EI]. fold P in EI.
    unfold branching_loop; fold branching_loop. unfold P at 1.
    rewrite (mapM_ok (getitem r) (dict_val r)); [|intros x Hx; apply getitem_val; auto].
    cbn [bind].
    destruct (py_min (map (dict_val r) (greedily_find_independent_set s P)))
      as [m| |] eqn:Em; try (rewrite EI in Em; discriminate).
    cbn [bind].
    destruct (Qgtb (total + m) target).
    { exists (fun _ => true). now rewrite filter_all. }
    destruct (lower_residuals_ok m r (greedy_NoDup s P) HI)
      as (r' & E & Hkeys & Hin & Hout).
    rewrite E. cbn [bind].
    set (q := fun v => negb (Qeq_bool (dict_val r' v) 0)).
    rewrite (filterM_ok _ q);
      [|intros x Hx; rewrite getitem_val; [reflexivity|apply Hkeys; auto]].
    cbn [bind].
    apply py_min_In, in_map_iff in Em. destruct Em as (vm & Evm & Hvm).
    assert (Hq : q vm = false).
    { unfold q. rewrite (Hin _ Hvm), Evm, Qeq_bool_minus_self. reflexivity. }
    assert (Hlt : (List.length (filter q P) < List.length P)%nat).
    { apply filter_length_lt with vm; auto. eapply greedy_incl; eauto. }
    destruct (IH r' (total + m)%Q (filter q P)) as [p Ep].
    + intros x Hx. apply filter_In in Hx. apply Hkeys, Hincl. tauto.
    + lia.
    + exists (fun x => q x && p x). rewrite Ep. now rewrite filter_filter_and.
Qed.

Lemma find_branching_nodes_ok s P target :
  incl P (keys (node_weights s)) ->
  exists p, find_branching_nodes s P target = Ok (filter p P).
Proof.
  intros Hincl. unfold find_branching_nodes.
  destruct (dict_comp_ok (getitem (node_weights s)) P) as [d Ed].
  { intros v Hv. rewrite getitem_val by auto. eauto. }
  rewrite Ed. simpl. apply branching_loop_ok; auto.
  intros x Hx. now apply (dict_comp_keys _ _ Ed).
Qed.

(** ** An invariant rule for [expand] *)

Section ExpandInvariant.

Variable g : Graph.
Variable nw : dict Q.

(** [Inv] speaks of the selector, [Pre] of the arguments of a call. *)
Variable Inv : MaxWeightTasksSelector -> Prop.
Variable Pre : list string -> Q -> list string -> Prop.

Hypothesis Inv_frame : forall s, Inv s -> G s = g /\ node_weights s = nw.

Hypothesis Pre_pool : forall C w P, Pre C w P -> NoDup P /\ incl P (keys nw).

Hypothesis Inv_enter : forall s C w P,
  Inv s -> Pre C w P -> Inv (update_incumbent_if_improved (log_call s C) C w).

Hypothesis Pre_branch : forall C w P v P',
  Pre C w P -> In v P -> NoDup P' -> ~ In v P' ->
  (forall x, In x P' <-> In x P /\ x <> v) ->
  Pre (C ++ [v]) (w + dict_val nw v)%Q
      (filter (fun x => negb (has_edge g v x)) P')
  /\ Pre C w P'.

Lemma branch_loop_invariant depth rec C w :
  (forall s C' w' P', Inv s -> Pre C' w' P' ->
     (List.length P' < depth)%nat ->
     exists s', rec s C' w' P' = Ok s' /\ Inv s') ->
  forall popped s P,
    Inv s -> Pre C w P -> NoDup popped -> incl popped P ->
    (List.length P <= depth)%nat ->
    exists s', branch_loop rec s C w P popped = Ok s' /\ Inv s'.
Proof.
  intros Hrec. induction popped as [|v popped IH]; intros s P HI HP HN Hincl Hlen.
  - exists s. split; auto.
  - inversion HN as [|? ? Hv HN']; subst.
    destruct (Pre_pool HP) as [HNP HPk].
    destruct (Inv_frame HI) as [EG Enw].
    assert (HvP : In v P) by (apply Hincl; simpl; auto).
    destruct (list_remove_ok v HvP HNP) as (P' & E & HNP' & HvP' & Hin & HlenP).
    destruct (Pre_branch HP HvP HNP' HvP' Hin) as [Hchild Hrest].
    simpl. rewrite E. cbn [bind].
    rewrite Enw, getitem_val by (apply HPk; exact HvP). cbn [bind].
    rewrite EG.
    destruct (Hrec s _ _ _ HI Hchild) as (s1 & E1 & HI1).
    { pose proof (filter_length_le (fun x => negb (has_edge g v x)) P'). lia. }
    rewrite E1. cbn [bind].
    apply IH; auto.
    + intros x Hx. apply Hin. split.
      * apply Hincl. simpl. auto.
      * intros ->. tauto.
    + lia.
Qed.

Lemma expand_invariant : forall depth s C w P,
  Inv s -> Pre C w P -> (List.length P < depth)%nat ->
  exists s', expand depth s C w P = Ok s' /\ Inv s'.
Proof.
  induction depth as [|depth IH]; intros s C w P HI HP Hlen; [lia|].
  pose proof (Inv_enter HI HP) as HI1.
  destruct (Pre_pool HP) as [HNP HPk].
  destruct (Inv_frame HI1) as [EG Enw].
  simpl.
  destruct (@find_branching_nodes_ok
              (update_incumbent_if_improved (log_call s C) C w) P
              (incumbent_weight (update_incumbent_if_improved (log_call s C) C w)
               - w)%Q) as [p Ep].
  { now rewrite Enw. }
  rewrite Ep. cbn [bind].
  apply branch_loop_invariant with (depth := depth); auto.
  - apply NoDup_rev. now apply NoDup_filter.
  - intros x Hx. rewrite <- in_rev in Hx. apply filter_In in Hx. tauto.
  - lia.
Qed.

Lemma find_max_weight_clique_invariant depth s :
  Inv s -> NoDup (nodes g) -> incl (nodes g) (keys nw) ->
  (forall P, NoDup P -> incl P (nodes g) -> Pre [] 0%Q P) ->
  (List.length (nodes g) < depth)%nat ->
  exists s', find_max_weight_clique depth s = Ok s' /\ Inv s'.
Proof.
  intros HI HN Hk Htop Hlen. destruct (Inv_frame HI) as [EG Enw].
  unfold find_max_weight_clique. rewrite EG, Enw.
  pose proof (sorted_reverse_perm (degree g) (nodes g)) as Hperm.
  rewrite (filterM_ok _ (fun v => Qgtb (dict_val nw v) 0)).
  2:{ intros x Hx. rewrite getitem_val; [reflexivity|].
      apply Hk. eapply Permutation_in; eauto. }
  cbn [bind]. apply expand_invariant; auto.
  - apply Htop.
    + apply NoDup_filter. eapply Permutation_NoDup; [|exact HN].
      now apply Permutation_sym.
    + intros x Hx. apply filter_In in Hx. eapply Permutation_in; eauto. tauto.
  - pose proof (filter_length_le (fun v => Qgtb (dict_val nw v) 0)
                  (sorted_reverse (degree g) (nodes g))).
    rewrite (Permutation_length Hperm) in H. lia.
Qed.

End ExpandInvariant.



(** ** The search is total *)

Lemma Qgtb_lt a b : Qgtb a b = true -> (b < a)%Q.
Proof.
  unfold Qgtb. intros H. apply negb_true_iff in H.
  apply Qnot_le_lt. intros Hle. apply Qle_bool_iff in Hle. congruence.
Qed.

Lemma update_incumbent_frame s C w :
  G (update_incumbent_if_improved s C w) = G s
  /\ node_weights (update_incumbent_if_improved s C w) = node_weights s
  /\ ghost_calls (update_incumbent_if_improved s C w) = ghost_calls s.
Proof.
  unfold update_incumbent_if_improved.
  destruct (Qgtb w (incumbent_weight s)); auto.
Qed.

Lemma update_incumbent_cases s C w :
  (incumbent_nodes (update_incumbent_if_improved s C w) = C
   /\ incumbent_weight (update_incumbent_if_improved s C w) = w
   /\ (incumbent_weight s < w)%Q)
  \/ update_incumbent_if_improved s C w = s.
Proof.
  unfold update_incumbent_if_improved.
  destruct (Qgtb w (incumbent_weight s)) eqn:E; auto.
  left. simpl. repeat split. now apply Qgtb_lt.
Qed.

(** The ghost record only grows, and a call of [expand] adds its own
    candidate to it first. *)
Lemma branch_loop_records rec C w :
  (forall s C' w' P' s', rec s C' w' P' = Ok s' ->
     exists more, ghost_calls s' = ghost_calls s ++ more) ->
  forall popped s P s',
    branch_loop rec s C w P popped = Ok s' ->
    exists more, ghost_calls s' = ghost_calls s ++ more.
Proof.
  intros Hrec. induction popped as [|v popped IH]; intros s P s' H; simpl in H.
  - inversion H; subst. exists []. now rewrite app_nil_r.
  - destruct (list_remove P v) as [P1| |]; cbn [bind] in H; try discriminate.
    destruct (getitem (node_weights s) v) as [wv| |]; cbn [bind] in H;
      try discriminate.
    destruct (rec s (C ++ [v]) (w + wv)%Q
                (filter (fun x => negb (has_edge (G s) v x)) P1))
      as [s1| |] eqn:E; cbn [bind] in H; try discriminate.
    destruct (Hrec _ _ _ _ _ E) as [m1 E1].
    destruct (IH _ _ _ H) as [m2 E2].
    exists (m1 ++ m2). now rewrite E2, E1, app_assoc.
Qed.

Lemma expand_records : forall depth s C w P s',
  expand depth s C w P = Ok s' ->
  exists more, ghost_calls s' = ghost_calls s ++ C :: more.
Proof.
  induction depth as [|depth IH]; intros s C w P s' H; [discriminate|].
  simpl in H.
  destruct (find_branching_nodes _ P _) as [B| |]; cbn [bind] in H;
    try discriminate.
  apply branch_loop_records in H.
  - destruct H as [more E]. exists more. rewrite E.
    destruct (update_incumbent_frame (log_call s C) C w) as (_ & _ & ->).
    simpl. now rewrite <- app_assoc.
  - intros s1 C1 w1 P1 s2 E. destruct (IH _ _ _ _ _ E) as [more Em].
    exists (C1 :: more). exact Em.
Qed.


Lemma pool_ok_branch nw (g : Graph) P v P' :
  pool_ok nw P -> NoDup P' -> (forall x, In x P' <-> In x P /\ x <> v) ->
  pool_ok nw (filter (fun x => negb (has_edge g v x)) P') /\ pool_ok nw P'.
Proof.
  intros [HN Hk] HN' Hin. unfold pool_ok. repeat split; auto.
  - now apply NoDup_filter.
  - intros x Hx. apply filter_In in Hx. apply Hk, Hin. tauto.
  - intros x Hx. apply Hk, Hin. exact Hx.
Qed.


Lemma init_inv g weight s :
  MaxWeightTasksSelector_init g (Some weight) = Ok s ->
  G s = g /\ incumbent_nodes s = [] /\ incumbent_weight s = 0%Q
  /\ ghost_calls s = []
  /\ (forall x, In x (keys (node_weights s)) <-> In x (nodes g)).
Proof.
  unfold MaxWeightTasksSelector_init. intros H.
  destruct (foldM _ (nodes g) tt) as [[]| |]; simpl in H; try discriminate.
  destruct (dict_comp _ (nodes g)) as [d| |] eqn:Ed; simpl in H; try discriminate.
  inversion H; subst; simpl. repeat split; auto.
  - now apply (dict_comp_keys _ _ Ed).
  - now apply (dict_comp_keys _ _ Ed).
Qed.

Lemma check_loop_ok (f : string -> bool) (e : string -> exn) vs :
  (forall v, In v vs -> f v = true) ->
  foldM (fun (_ : unit) v => if f v then Ok tt else Raise (e v)) vs tt = Ok tt.
Proof.
  induction vs as [|v vs IH]; intros H; simpl; auto.
  rewrite (H v) by (simpl; auto). simpl. apply IH.
  intros w Hw. apply H. simpl. auto.
Qed.

Lemma init_ok g weight :
  (forall v, In v (nodes g) -> dict_mem (node_attrs g v) weight = true) ->
  exists s, MaxWeightTasksSelector_init g (Some weight) = Ok s.
Proof.
  intros H. unfold MaxWeightTasksSelector_init.
  rewrite (check_loop_ok (fun v => dict_mem (node_attrs g v) weight)) by exact H.
  cbn [bind].
  destruct (dict_comp_ok (fun v => getitem (node_attrs g v) weight) (nodes g))
    as [d Ed].
  { intros v Hv. specialize (H v Hv). unfold dict_mem, getitem in *.
    destruct (dict_get (node_attrs g v) weight); [eauto|discriminate]. }
  rewrite Ed. cbn [bind]. eauto.
Qed.


(** ** Every candidate is an independent set *)

Section Independence.

Variable g : Graph.
Variable nw : dict Q.

Hypothesis has_edge_sym : forall a b, has_edge g a b = has_edge g b a.
Hypothesis has_edge_irrefl : forall a, has_edge g a a = false.

Lemma sound_enter s C w P :
  sound g nw s -> extends g nw C w P ->
  sound g nw (update_incumbent_if_improved (log_call s C) C w).
Proof.
  intros (EG & Enw & Hinc & Hcalls) (_ & HC & _).
  destruct (update_incumbent_frame (log_call s C) C w) as (E1 & E2 & E3).
  unfold sound. rewrite E1, E2, E3. simpl.
  split; [exact EG|]. split; [exact Enw|]. split.
  - destruct (update_incumbent_cases (log_call s C) C w) as [(-> & _)| ->];
      auto.
  - apply Forall_app. split; auto.
Qed.

Lemma extends_branch C w P v P' :
  extends g nw C w P -> In v P -> NoDup P' -> ~ In v P' ->
  (forall x, In x P' <-> In x P /\ x <> v) ->
  extends g nw (C ++ [v]) (w + dict_val nw v)%Q
          (filter (fun x => negb (has_edge g v x)) P')
  /\ extends g nw C w P'.
Proof.
  intros (HP & (Hind & HNC & HCk) & Hsep) Hv HN' Hv' Hin.
  destruct (@pool_ok_branch nw g P v P' HP HN' Hin) as [Hp1 Hp2].
  split.
  - split; [exact Hp1|split].
    + split; [|split].
      * intros a b Ha Hb. apply in_app_iff in Ha. apply in_app_iff in Hb.
        simpl in Ha, Hb.
        destruct Ha as [Ha|[<-|[]]], Hb as [Hb|[<-|[]]]; auto.
        -- now apply Hsep.
        -- rewrite has_edge_sym. now apply Hsep.
      * apply NoDup_app; auto.
        -- repeat constructor. simpl. tauto.
        -- intros x Hx Hk. simpl in Hk. destruct Hk as [<-|Hk]; [|tauto].
           now destruct (Hsep _ _ Hx Hv).
      * intros x Hx. apply in_app_iff in Hx. simpl in Hx.
        destruct Hx as [Hx|[<-|[]]]; auto. now apply HP.
    + intros c p Hc Hp. apply filter_In in Hp. destruct Hp as [Hp Hadj].
      apply negb_true_iff in Hadj.
      apply in_app_iff in Hc. simpl in Hc. destruct Hc as [Hc|[<-|[]]].
      * apply Hsep; auto. now apply Hin.
      * split; auto. intros ->. apply Hin in Hp. tauto.
  - split; [exact Hp2|split].
    + repeat split; auto.
    + intros c p Hc Hp. apply Hsep; auto. now apply Hin.
Qed.

Lemma expand_sound depth s C w P :
  sound g nw s -> extends g nw C w P -> (List.length P < depth)%nat ->
  exists s', expand depth s C w P = Ok s' /\ sound g nw s'.
Proof.
  intros HI HP Hlen.
  apply (@expand_invariant g nw (sound g nw) (extends g nw)); auto.
  - intros s0 (E1 & E2 & _). auto.
  - intros C0 w0 P0 (H0 & _). exact H0.
  - apply sound_enter.
  - apply extends_branch.
Qed.

Lemma find_max_weight_clique_sound depth s :
  sound g nw s -> NoDup (nodes g) -> incl (nodes g) (keys nw) ->
  (List.length (nodes g) < depth)%nat ->
  exists s', find_max_weight_clique depth s = Ok s' /\ sound g nw s'.
Proof.
  intros HI HN Hk Hlen.
  apply (@find_max_weight_clique_invariant g nw (sound g nw) (extends g nw)); auto.
  - intros s0 (E1 & E2 & _). auto.
  - intros C0 w0 P0 (H0 & _). exact H0.
  - apply sound_enter.
  - apply extends_branch.
  - intros P HP Hincl. split; [|split].
    + split; auto. intros x Hx. now apply Hk, Hincl.
    + split; [|split].
      * intros a b [].
      * constructor.
      * intros x [].
    + intros c p [].
Qed.

End Independence.


(** ** The search on the graph of well-formed tasks *)

Lemma NoDup_map_inj (A B : Type) (f : A -> B) l x y :
  NoDup (map f l) -> In x l -> In y l -> f x = f y -> x = y.
Proof.
  induction l as [|z l IH]; simpl; [tauto|].
  intros HN Hx Hy E. inversion HN as [|? ? Hz HN']; subst.
  destruct Hx as [->|Hx], Hy as [->|Hy]; auto.
  - exfalso. apply Hz. rewrite E. now apply in_map.
  - exfalso. apply Hz. rewrite <- E. now apply in_map.
Qed.

Lemma has_edge_In g a b :
  has_edge g a b = true -> In a (nodes g) /\ In b (nbrs_of g a).
Proof.
  rewrite has_edge_nbrs_of. intros H. apply contains_In in H. split; auto.
  unfold nbrs_of in H. destruct (dict_get g a) eqn:E; [|destruct H].
  eapply dict_get_Some_In; eauto.
Qed.

Lemma conflict_graph_weighted tasks v :
  NoDup (map name_of tasks) -> In v (nodes (conflict_graph tasks)) ->
  dict_mem (node_attrs (conflict_graph tasks) v) PROFIT_KEY = true.
Proof.
  intros HN Hv.
  apply (Permutation_in _ (@conflict_graph_nodes tasks HN)) in Hv.
  apply in_map_iff in Hv. destruct Hv as (t & <- & Ht).
  pose proof (@conflict_graph_profit tasks t HN Ht) as E.
  unfold node_profit in E. unfold dict_mem. now rewrite E.
Qed.

(** On well-formed tasks with unique names the search returns, and what it
    returns and visits are candidates of the conflict graph. *)
Lemma search_conflict_graph tasks :
  NoDup (map name_of tasks) ->
  exists s, search (conflict_graph tasks) = Ok s
            /\ G s = conflict_graph tasks
            /\ candidate (conflict_graph tasks) (node_weights s) (incumbent_nodes s)
            /\ Forall (candidate (conflict_graph tasks) (node_weights s))
                      (ghost_calls s)
            /\ (forall x, In x (keys (node_weights s))
                          <-> In x (nodes (conflict_graph tasks))).
Proof.
  intros HN. set (g := conflict_graph tasks).
  destruct (@init_ok g PROFIT_KEY) as [s0 E0].
  { intros v Hv. now apply conflict_graph_weighted. }
  destruct (@init_inv g PROFIT_KEY s0 E0) as (EG & Ei & Ew & Ec & Hk).
  destruct (@find_max_weight_clique_sound g (node_weights s0)
              (conflict_graph_sym tasks) (fun a => @conflict_graph_irrefl tasks a HN)
              (S (List.length (nodes g))) s0) as (s & E & HG & Hnw & Hinc & Hcalls).
  - unfold sound. rewrite EG, Ei, Ec. repeat split; auto.
    + intros a b [].
    + constructor.
    + intros x [].
  - apply conflict_graph_NoDup.
  - intros x Hx. now apply Hk.
  - lia.
  - exists s. unfold search. rewrite E0. cbn [bind]. rewrite Hnw.
    split; [exact E|]. split; [exact HG|]. split; [exact Hinc|].
    split; [exact Hcalls|]. exact Hk.
Qed.

Section Claims.

Variable str : task -> string.

(** ** C7: the conflict graph *)

(** C7. For well-formed tasks with unique names, [from_tasks_to_graph]
    builds (leaving nothing in the list) a graph with one node per task,
    each weighted by its task's profit; two distinct tasks are adjacent
    exactly when their resource lists share an element; adjacency is
    symmetric, as is the incompatibility test; there is no self-loop and
    no neighbour is recorded twice. *)
Theorem from_tasks_to_graph_conflict_graph tasks :
  valid_tasks tasks ->
  exists g,
    from_tasks_to_graph str tasks = ([], Ok g)
    /\ Permutation (nodes g) (map name_of tasks)
    /\ (forall t, In t tasks -> node_profit g (name_of t) = Some (profit_of t))
    /\ (forall t1 t2, In t1 tasks -> In t2 tasks -> t1 <> t2 ->
          (has_edge g (name_of t1) (name_of t2) = true <-> share_resource t1 t2))
    /\ (forall a b, has_edge g a b = true -> In a (nodes g) /\ In b (nodes g))
    /\ (forall a b, has_edge g a b = has_edge g b a)
    /\ (forall r1 r2, are_incompatibles r1 r2 = are_incompatibles r2 r1)
    /\ (forall a, has_edge g a a = false)
    /\ (forall u, NoDup (nbrs_of g u)).
Proof.
  intros [Hwf HN]. exists (conflict_graph tasks).
  split; [now apply from_tasks_to_graph_wf|].
  split; [now apply conflict_graph_nodes|].
  split; [intros t Ht; now apply conflict_graph_profit|].
  split.
  { intros t1 t2 H1 H2 Hne. rewrite conflict_graph_has_edge by exact HN.
    unfold share_resource. rewrite <- are_incompatibles_share. split.
    - intros (u1 & u2 & Hu1 & Hu2 & E1 & E2 & _ & Hi).
      apply (@NoDup_map_inj _ _ name_of tasks u1 t1 HN Hu1 H1) in E1.
      apply (@NoDup_map_inj _ _ name_of tasks u2 t2 HN Hu2 H2) in E2. now subst.
    - intros Hi. exists t1, t2. repeat split; auto.
      intros E. apply Hne. exact (@NoDup_map_inj _ _ name_of tasks t1 t2 HN H1 H2 E). }
  split.
  { intros a b H. apply (@conflict_graph_has_edge tasks a b HN) in H.
    destruct H as (t1 & t2 & H1 & H2 & <- & <- & _).
    split; apply (Permutation_in _ (Permutation_sym (@conflict_graph_nodes tasks HN)));
      now apply in_map. }
  split; [apply conflict_graph_sym|].
  split; [apply are_incompatibles_sym|].
  split; [intros a; now apply conflict_graph_irrefl|].
  apply conflict_graph_simple.
Qed.

(** ** C3: every candidate is an independent set *)

Lemma schedule_search_valid tasks :
  valid_tasks tasks ->
  exists s,
    schedule_search str tasks = Ok s
    /\ get_highest_profit_schedule str tasks = ([], Ok (incumbent_nodes s))
    /\ G s = conflict_graph tasks
    /\ candidate (conflict_graph tasks) (node_weights s) (incumbent_nodes s)
    /\ Forall (candidate (conflict_graph tasks) (node_weights s)) (ghost_calls s)
    /\ (forall x, In x (keys (node_weights s))
                  <-> In x (nodes (conflict_graph tasks))).
Proof.
  intros [Hwf HN].
  destruct (@search_conflict_graph tasks HN) as (s & E & HG & Hinc & Hcalls & Hk).
  exists s. unfold schedule_search, get_highest_profit_schedule.
  rewrite (@from_tasks_to_graph_wf str tasks Hwf).
  unfold get_maximum_weighted_independient_set. cbn [bind snd].
  fold (conflict_graph tasks). rewrite E. cbn [bind].
  repeat (split; [assumption || reflexivity|]). exact Hk.
Qed.

(** C3. On well-formed tasks with unique names the search returns; the
    candidate [C] of every call of [expand] (the ghost record of the
    calls) is pairwise non-adjacent in the conflict graph, and so is the
    returned schedule, which names each task at most once and holds no two
    tasks that share a resource. *)
Theorem schedule_independent tasks :
  valid_tasks tasks ->
  exists s,
    schedule_search str tasks = Ok s
    /\ get_highest_profit_schedule str tasks = ([], Ok (incumbent_nodes s))
    /\ Forall (independent (G s)) (ghost_calls s)
    /\ independent (G s) (incumbent_nodes s)
    /\ NoDup (incumbent_nodes s)
    /\ incl (incumbent_nodes s) (map name_of tasks)
    /\ (forall t1 t2, In t1 tasks -> In t2 tasks -> t1 <> t2 ->
          In (name_of t1) (incumbent_nodes s) ->
          In (name_of t2) (incumbent_nodes s) ->
          ~ share_resource t1 t2).
Proof.
  intros Hv. pose proof Hv as [Hwf HN].
  destruct (schedule_search_valid Hv)
    as (s & E & Eg & HG & (Hind & Hnd & Hin) & Hcalls & Hk).
  exists s. rewrite HG.
  split; [exact E|]. split; [exact Eg|].
  split; [|split; [exact Hind|split; [exact Hnd|split]]].
  - eapply Forall_impl; [|exact Hcalls]. intros C (HC & _). exact HC.
  - intros x Hx. apply Hin, Hk in Hx.
    exact (Permutation_in _ (@conflict_graph_nodes tasks HN) Hx).
  - intros t1 t2 H1 H2 Hne Hs1 Hs2 Hshare.
    pose proof (Hind _ _ Hs1 Hs2) as Hadj.
    assert (Ht : has_edge (conflict_graph tasks) (name_of t1) (name_of t2) = true).
    { apply (@conflict_graph_has_edge tasks _ _ HN).
      exists t1, t2. repeat split; auto.
      - intros En. apply Hne.
        exact (@NoDup_map_inj _ _ name_of tasks t1 t2 HN H1 H2 En).
      - now apply are_incompatibles_share. }
    congruence.
Qed.

(** ** C9: the search ends *)


(** ** C4: what the call does to the caller's list *)

Lemma build_loop_prefix rev_tasks : forall g,
  exists popped,
    rev rev_tasks = fst (build_loop str g rev_tasks) ++ popped.
Proof.
  induction rev_tasks as [|t1 rest IH]; intros g; simpl.
  - exists []. reflexivity.
  - destruct (try_add_node str g t1) as [g1| |];
      try (exists [t1]; reflexivity).
    destruct (add_conflicts g1 t1 (rev rest)) as [g2| |];
      try (exists [t1]; reflexivity).
    destruct (IH g2) as [popped E]. exists (popped ++ [t1]).
    rewrite E at 1. now rewrite app_assoc.
Qed.

(** C4 as amended. [get_highest_profit_schedule] pops from the list it is
    given: what it leaves there is the input without its last tasks, each
    record as it was; on well-formed tasks with unique names it returns a
    schedule and leaves the list empty. *)
Theorem caller_list_emptied tasks :
  valid_tasks tasks ->
  (exists schedule, get_highest_profit_schedule str tasks = ([], Ok schedule))
  /\ (forall tasks',
        exists popped,
          tasks' = fst (get_highest_profit_schedule str tasks') ++ popped).
Proof.
  intros Hv. split.
  - destruct (schedule_search_valid Hv) as (s & _ & E & _). eauto.
  - intros tasks'. unfold get_highest_profit_schedule, from_tasks_to_graph.
    destruct (build_loop_prefix (rev tasks') empty_graph) as [popped E].
    rewrite rev_involutive in E. exists popped.
    destruct (build_loop str empty_graph (rev tasks')). exact E.
Qed.


(** ** C2 and C10: records that miss a key *)

(** The task popped first misses [name] or [profit]: [InvalidTaskFormat],
    with the record's content in the message. *)
Lemma missing_name_or_profit tasks t :
  task_name t = None \/ task_profit t = None ->
  from_tasks_to_graph str (tasks ++ [t])
  = (tasks, Raise (InvalidTaskFormat (invalid_task_msg str t)))
  /\ occurs_in (str t) (invalid_task_msg str t).
Proof.
  intros H. split.
  - unfold from_tasks_to_graph. rewrite rev_app_distr. simpl.
    rewrite rev_involutive.
    destruct t as [[n|] r [p|]]; simpl in *; auto;
      destruct H; discriminate.
  - unfold occurs_in, invalid_task_msg. eauto.
Qed.

(** A record without [resources], the first of two or more tasks of which
    the last is well-formed: a bare [KeyError]. *)
Lemma missing_resources_first t0 tasks t :
  task_resources t0 = None -> well_formed t = true ->
  from_tasks_to_graph str (t0 :: tasks ++ [t])
  = (t0 :: tasks, Raise (KeyError RESOURCES_KEY)).
Proof.
  intros H0 Ht. unfold from_tasks_to_graph.
  change (t0 :: tasks ++ [t]) with ((t0 :: tasks) ++ [t]).
  rewrite rev_app_distr. cbn [rev app build_loop].
  rewrite try_add_node_wf by exact Ht.
  change (rev tasks ++ [t0]) with (rev (t0 :: tasks)).
  rewrite rev_involutive.
  destruct t as [[n|] [r|] [p|]]; try discriminate.
  cbn [add_conflicts lookup task_resources bind]. rewrite H0. reflexivity.
Qed.

(** C2, at a failing input: the first of two records misses [resources];
    the builder raises [KeyError], not [InvalidTaskFormat]. *)
Theorem missing_resources_key_error :
  from_tasks_to_graph str no_resources_first
  = ([mkTask (Some "t1") None (Some 1)], Raise (KeyError RESOURCES_KEY))
  /\ forall msg,
       snd (get_highest_profit_schedule str no_resources_first)
       <> Raise (InvalidTaskFormat msg).
Proof. split; [reflexivity|]. intros msg. discriminate. Qed.


(** ** C5 and C8: concrete runs *)

(** C5. On the four tasks of the scenario the graph has the nodes t1..t4
    and exactly the edges (t1,t2), (t1,t3), (t1,t4), (t2,t4); the schedule
    is t3, t4, of total profit 9.5. *)
Theorem scenario_schedule :
  exists g,
    from_tasks_to_graph str scenario_tasks = ([], Ok g)
    /\ Permutation (nodes g) ["t1"; "t2"; "t3"; "t4"]
    /\ (forall a b, has_edge g a b = true
                    <-> In (a, b) scenario_edges \/ In (b, a) scenario_edges)
    /\ get_highest_profit_schedule str scenario_tasks = ([], Ok ["t3"; "t4"])
    /\ schedule_profit scenario_tasks ["t3"; "t4"] == 95 # 10.
Proof.
  eexists. split; [vm_compute; reflexivity|].
  split.
  { apply NoDup_Permutation.
    - repeat constructor; simpl; intuition discriminate.
    - repeat constructor; simpl; intuition discriminate.
    - intros x. simpl. tauto. }
  split.
  { intros a b. split.
    - intros H. apply has_edge_In in H. destruct H as [Ha Hb].
      simpl in Ha.
      destruct Ha as [<-|[<-|[<-|[<-|[]]]]]; vm_compute in Hb;
        destruct Hb as [<-|Hb]; simpl; auto 12;
        try (destruct Hb as [<-|Hb]; simpl; auto 12);
        try (destruct Hb as [<-|Hb]; simpl; auto 12);
        try contradiction.
    - simpl.
      intros [[H|[H|[H|[H|[]]]]]|[H|[H|[H|[H|[]]]]]];
        inversion H; subst; reflexivity. }
  split; [vm_compute; reflexivity|].
  vm_compute. reflexivity.
Qed.

(** C8. On the empty list the schedule is empty, the incumbent weight is 0
    and nothing is raised. *)
Theorem empty_schedule :
  get_highest_profit_schedule str [] = ([], Ok [])
  /\ exists s, schedule_search str [] = Ok s
               /\ incumbent_nodes s = [] /\ incumbent_weight s = 0%Q.
Proof.
  split; [reflexivity|]. eexists. split; [reflexivity|]. split; reflexivity.
Qed.

(** ** C1 and C6: the inherited bound prunes optimal schedules *)

(** C1, at a failing input: five well-formed tasks with unique names on
    which the schedule returned has total profit 5, while t1, t3, t4 share
    no resource and earn 6, the best there is. *)
Theorem pruned_schedule_not_optimal :
  forallb well_formed pruned_tasks = true
  /\ NoDup (map name_of pruned_tasks)
  /\ get_highest_profit_schedule str pruned_tasks = ([], Ok ["t0"; "t3"; "t4"])
  /\ schedule_profit pruned_tasks ["t0"; "t3"; "t4"] == 5
  /\ pairwise_disjoint
       [T "t1" ["r01"] 2; T "t3" ["r23"] 2; T "t4" ["r24"] 2] = true
  /\ schedule_profit pruned_tasks ["t1"; "t3"; "t4"] == 6
  /\ best_disjoint_profit pruned_tasks == 6.
Proof.
  split; [reflexivity|].
  split; [repeat constructor; simpl; intuition discriminate|].
  split; [vm_compute; reflexivity|].
  repeat split; vm_compute; reflexivity.
Qed.

(** C6, at a failing input: the same five tasks in two orders; the
    schedules returned earn 5 and 6. *)
Theorem reordering_changes_profit :
  Permutation pruned_tasks pruned_tasks_reordered
  /\ get_highest_profit_schedule str pruned_tasks = ([], Ok ["t0"; "t3"; "t4"])
  /\ get_highest_profit_schedule str pruned_tasks_reordered
     = ([], Ok ["t3"; "t1"; "t4"])
  /\ schedule_profit pruned_tasks ["t0"; "t3"; "t4"] == 5
  /\ schedule_profit pruned_tasks_reordered ["t3"; "t1"; "t4"] == 6.
Proof.
  split.
  { unfold pruned_tasks, pruned_tasks_reordered.
    apply perm_skip.
    apply Permutation_trans with
      (T "t2" ["r23"; "r24"] 1 :: T "t1" ["r01"] 2
       :: [T "t3" ["r23"] 2; T "t4" ["r24"] 2]); [apply perm_swap|].
    apply perm_skip. apply perm_swap. }
  split; [vm_compute; reflexivity|].
  split; [vm_compute; reflexivity|].
  split; vm_compute; reflexivity.
Qed.

End Claims.

(** ** Instances *)

Lemma scenario_valid : valid_tasks scenario_tasks.
Proof.
  split.
  - repeat constructor.
  - repeat constructor; simpl; intuition discriminate.
Qed.

Lemma from_tasks_to_graph_conflict_graph_witness :
  valid_tasks scenario_tasks
  /\ exists g, from_tasks_to_graph str_task scenario_tasks = ([], Ok g)
               /\ forall a, has_edge g a a = false.
Proof.
  split; [exact scenario_valid|].
  destruct (from_tasks_to_graph_conflict_graph str_task scenario_valid)
    as (g & E & _ & _ & _ & _ & _ & _ & H & _).
  exists g. split; assumption.
Defined.

Lemma schedule_independent_witness :
  valid_tasks scenario_tasks
  /\ exists s, schedule_search str_task scenario_tasks = Ok s
               /\ independent (G s) (incumbent_nodes s).
Proof.
  split; [exact scenario_valid|].
  destruct (schedule_independent str_task scenario_valid)
    as (s & E & _ & _ & H & _).
  exists s. split; assumption.
Defined.


Lemma caller_list_emptied_witness :
  valid_tasks scenario_tasks
  /\ exists schedule,
       get_highest_profit_schedule str_task scenario_tasks = ([], Ok schedule).
Proof.
  split; [exact scenario_valid|].
  exact (proj1 (caller_list_emptied str_task scenario_valid)).
Defined.

(** C4 as stated fails: after the call the caller's list is empty, not
    the four tasks it held. *)
Lemma caller_list_changed :
  fst (get_highest_profit_schedule str_task scenario_tasks) = []
  /\ fst (get_highest_profit_schedule str_task scenario_tasks) <> scenario_tasks.
Proof. split; [vm_compute; reflexivity|]. vm_compute. discriminate. Qed.


(** ** Which task lists [from_tasks_to_graph] accepts, and what it raises *)

Section BuilderErrors.

Variable str : task -> string.

Lemma try_add_node_Ok g t1 g1 :
  try_add_node str g t1 = Ok g1 ->
  has_name_profit t1 = true
  /\ g1 = add_node g (name_of t1) [(PROFIT_KEY, profit_of t1)].
Proof.
  destruct t1 as [[n|] r [p|]]; cbn; intros H; inversion H; auto.
Qed.

Lemma try_add_node_Raise g t1 e :
  try_add_node str g t1 = Raise e ->
  has_name_profit t1 = false /\ e = InvalidTaskFormat (invalid_task_msg str t1).
Proof.
  destruct t1 as [[n|] r [p|]]; cbn; intros H; inversion H; auto.
Qed.


Lemma add_conflicts_Ok t1 tasks : forall g g',
  add_conflicts g t1 tasks = Ok g' ->
  tasks = []
  \/ (has_resources t1 = true
      /\ Forall (fun t => has_resources t = true) tasks).
Proof.
  induction tasks as [|t2 tasks IH]; intros g g' H; auto.
  right. cbn [add_conflicts] in H.
  destruct t1 as [n1 [r1|] p1]; cbn in H; [|discriminate].
  destruct t2 as [n2 [r2|] p2]; cbn in H; [|discriminate].
  split; auto. constructor; auto.
  destruct (are_incompatibles r1 r2).
  - destruct n1 as [n1|]; cbn in H; [|discriminate].
    destruct n2 as [n2|]; cbn in H; [|discriminate].
    apply IH in H. destruct H as [->|[_ H]]; auto.
  - apply IH in H. destruct H as [->|[_ H]]; auto.
Qed.

Lemma add_conflicts_Raise t1 tasks e : forall g,
  add_conflicts g t1 tasks = Raise e ->
  (e = KeyError RESOURCES_KEY
   /\ (has_resources t1 = false
       \/ exists t2, In t2 tasks /\ has_resources t2 = false))
  \/ (e = KeyError NAME_KEY
      /\ (has_name t1 = false
          \/ exists t2, In t2 tasks /\ has_name t2 = false)).
Proof.
  induction tasks as [|t2 tasks IH]; intros g H; [discriminate|].
  cbn [add_conflicts] in H.
  destruct t1 as [n1 [r1|] p1]; cbn in H;
    [|inversion H; left; split; auto].
  destruct (task_resources t2) as [r2|] eqn:E2; cbn in H.
  2:{ inversion H. left. split; auto. right. exists t2. split; [left; auto|].
      unfold has_resources. now rewrite E2. }
  assert (Hrest :
    (e = KeyError RESOURCES_KEY
     /\ (has_resources (mkTask n1 (Some r1) p1) = false
         \/ exists t, In t tasks /\ has_resources t = false))
    \/ (e = KeyError NAME_KEY
        /\ (has_name (mkTask n1 (Some r1) p1) = false
            \/ exists t, In t tasks /\ has_name t = false)) ->
    (e = KeyError RESOURCES_KEY
     /\ (has_resources (mkTask n1 (Some r1) p1) = false
         \/ exists t, In t (t2 :: tasks) /\ has_resources t = false))
    \/ (e = KeyError NAME_KEY
        /\ (has_name (mkTask n1 (Some r1) p1) = false
            \/ exists t, In t (t2 :: tasks) /\ has_name t = false))).
  { intros [[He [Hl|(t & Ht & Hr)]]|[He [Hl|(t & Ht & Hr)]]]; auto.
    - left. split; auto. right. exists t. split; [right|]; auto.
    - right. split; auto. right. exists t. split; [right|]; auto. }
  destruct (are_incompatibles r1 r2).
  - destruct n1 as [n1|]; cbn in H; [|inversion H; right; split; auto].
    destruct (task_name t2) as [n2|] eqn:En2; cbn in H.
    + apply Hrest. eapply IH; eauto.
    + inversion H. right. split; auto. right. exists t2.
      split; [left; auto|]. unfold has_name. now rewrite En2.
  - apply Hrest. eapply IH; eauto.
Qed.


Lemma build_loop_Ok rev_tasks : forall g g',
  snd (build_loop str g rev_tasks) = Ok g' ->
  Forall (fun t => has_name_profit t = true) rev_tasks
  /\ ((List.length rev_tasks <= 1)%nat
      \/ Forall (fun t => has_resources t = true) rev_tasks).
Proof.
  induction rev_tasks as [|t1 rest IH]; intros g g' H.
  - split; [constructor|]. left. simpl. lia.
  - cbn [build_loop] in H.
    destruct (try_add_node str g t1) as [g1| |] eqn:E1; try discriminate.
    destruct (add_conflicts g1 t1 (rev rest)) as [g2| |] eqn:E2;
      try discriminate.
    apply try_add_node_Ok in E1. destruct E1 as [Hnp _].
    apply IH in H. destruct H as [Hall Hres].
    split; [constructor; auto|].
    apply add_conflicts_Ok in E2. destruct E2 as [E2|[Hr1 Hrr]].
    + left. apply (f_equal (@rev task)) in E2. rewrite rev_involutive in E2.
      subst rest. simpl. lia.
    + right. constructor; auto. apply Forall_rev in Hrr.
      now rewrite rev_involutive in Hrr.
Qed.

Lemma build_loop_Raise rev_tasks e : forall g,
  snd (build_loop str g rev_tasks) = Raise e ->
  (exists t, In t rev_tasks /\ has_name_profit t = false
             /\ e = InvalidTaskFormat (invalid_task_msg str t))
  \/ (e = KeyError RESOURCES_KEY
      /\ exists t, In t rev_tasks /\ has_resources t = false)
  \/ (e = KeyError NAME_KEY
      /\ exists t, In t rev_tasks /\ has_name t = false).
Proof.
  induction rev_tasks as [|t1 rest IH]; intros g H; [discriminate|].
  cbn [build_loop] in H.
  destruct (try_add_node str g t1) as [g1|e1|] eqn:E1.
  - destruct (add_conflicts g1 t1 (rev rest)) as [g2|e2|] eqn:E2.
    + apply IH in H.
      destruct H as [(t & Ht & H)|[[He (t & Ht & H)]|[He (t & Ht & H)]]].
      * left. exists t. split; [right|]; auto.
      * right. left. split; auto. exists t. split; [right|]; auto.
      * right. right. split; auto. exists t. split; [right|]; auto.
    + cbn in H. inversion H; subst e2. right.
      apply add_conflicts_Raise in E2.
      destruct E2 as [[He [Hl|(t & Ht & Hr)]]|[He [Hl|(t & Ht & Hr)]]].
      * left. split; auto. exists t1. split; [left|]; auto.
      * left. split; auto. exists t. rewrite <- in_rev in Ht.
        split; [right|]; auto.
      * right. split; auto. exists t1. split; [left|]; auto.
      * right. split; auto. exists t. rewrite <- in_rev in Ht.
        split; [right|]; auto.
    + discriminate.
  - cbn in H. inversion H; subst e1. left.
    apply try_add_node_Raise in E1. destruct E1 as [Hnp He].
    exists t1. split; [left|]; auto.
  - discriminate.
Qed.


Lemma name_profit_resources_wf t :
  has_name_profit t = true -> has_resources t = true -> well_formed t = true.
Proof. destruct t as [[n|] [r|] [p|]]; cbn; auto. Qed.

Lemma from_tasks_to_graph_Ok_inv tasks g :
  snd (from_tasks_to_graph str tasks) = Ok g ->
  (forall t, In t tasks -> has_name_profit t = true)
  /\ ((List.length tasks <= 1)%nat
      \/ forall t, In t tasks -> has_resources t = true).
Proof.
  intros H. unfold from_tasks_to_graph in H.
  apply build_loop_Ok in H. destruct H as [Hnp Hres].
  rewrite Forall_forall in Hnp. split.
  - intros t Ht. apply Hnp. now rewrite <- in_rev.
  - rewrite length_rev in Hres. destruct Hres as [Hl|Hr]; auto.
    right. rewrite Forall_forall in Hr. intros t Ht. apply Hr.
    now rewrite <- in_rev.
Qed.

(** X1. [from_tasks_to_graph] returns a graph exactly when every record
    has a name and a profit and, unless the list has at most one record,
    every record has resources. *)
Theorem from_tasks_to_graph_accepts tasks :
  (exists g, snd (from_tasks_to_graph str tasks) = Ok g)
  <-> forallb has_name_profit tasks = true
      /\ ((List.length tasks <= 1)%nat \/ forallb has_resources tasks = true).
Proof.
  rewrite !forallb_forall. split.
  - intros [g H]. now apply from_tasks_to_graph_Ok_inv in H.
  - intros [Hnp [Hlen|Hres]].
    + destruct tasks as [|t [|t' tasks]]; [eexists; reflexivity| |simpl in Hlen; lia].
      specialize (Hnp t (or_introl eq_refl)).
      destruct t as [[n|] r [p|]]; try discriminate. eexists. reflexivity.
    + exists (conflict_graph tasks). rewrite from_tasks_to_graph_wf; auto.
      apply Forall_forall. intros t Ht.
      apply name_profit_resources_wf; auto.
Qed.

(** X2. Whatever [from_tasks_to_graph] raises is an [InvalidTaskFormat]
    whose message holds the content of a record of the list that lacks
    [name] or [profit], or a bare [KeyError] for [resources] or [name],
    a key that some record of the list lacks. *)
Theorem from_tasks_to_graph_errors tasks e :
  snd (from_tasks_to_graph str tasks) = Raise e ->
  (exists t, In t tasks /\ has_name_profit t = false
             /\ e = InvalidTaskFormat (invalid_task_msg str t)
             /\ occurs_in (str t) (invalid_task_msg str t))
  \/ (e = KeyError RESOURCES_KEY
      /\ exists t, In t tasks /\ has_resources t = false)
  \/ (e = KeyError NAME_KEY
      /\ exists t, In t tasks /\ has_name t = false).
Proof.
  intros H. unfold from_tasks_to_graph in H. apply build_loop_Raise in H.
  destruct H as [(t & Ht & Hnp & He)|[[He (t & Ht & H)]|[He (t & Ht & H)]]].
  - left. exists t. rewrite <- in_rev in Ht. repeat split; auto.
    unfold occurs_in, invalid_task_msg. eauto.
  - right. left. split; auto. exists t. rewrite <- in_rev in Ht. auto.
  - right. right. split; auto. exists t. rewrite <- in_rev in Ht. auto.
Qed.

End BuilderErrors.

(** ** Missing keys met outside the [try] block *)

Section BuilderEdges.

Variable str : task -> string.

Lemma add_conflicts_missing_resources t1 tasks : forall g,
  has_resources t1 = true -> has_name t1 = true ->
  Forall (fun t => has_name t = true) tasks ->
  Exists (fun t => has_resources t = false) tasks ->
  add_conflicts g t1 tasks = Raise (KeyError RESOURCES_KEY).
Proof.
  intros g H1 Hn1 Hall Hex. revert g.
  destruct t1 as [[n1|] [r1|] p1]; try discriminate.
  induction tasks as [|t2 tasks IH]; intros g; [inversion Hex|].
  inversion Hall as [|? ? Hn2 Hall']; subst.
  cbn [add_conflicts lookup task_resources bind].
  destruct t2 as [[n2|] [r2|] p2]; try discriminate; cbn.
  - assert (Hex' : Exists (fun t => has_resources t = false) tasks).
    { inversion Hex as [? ? Hh|? ? Ht]; subst; [discriminate|exact Ht]. }
    destruct (are_incompatibles r1 r2); now apply IH.
  - reflexivity.
Qed.

(** X3. When the last record of a list of two or more is well-formed,
    every other record has a name and one of them lacks [resources], the
    builder raises a bare [KeyError] for [resources] while handling the
    last record, which is the only one it has popped. *)
Theorem missing_resources_key_error_general rest t :
  well_formed t = true ->
  Forall (fun t' => has_name t' = true) rest ->
  Exists (fun t' => has_resources t' = false) rest ->
  from_tasks_to_graph str (rest ++ [t]) = (rest, Raise (KeyError RESOURCES_KEY)).
Proof.
  intros Hwf Hall Hex. unfold from_tasks_to_graph.
  rewrite rev_app_distr. cbn [rev app build_loop].
  rewrite try_add_node_wf by exact Hwf. rewrite rev_involutive.
  rewrite add_conflicts_missing_resources; auto.
  - destruct t as [[n|] [r|] [p|]]; try discriminate. reflexivity.
  - destruct t as [[n|] [r|] [p|]]; try discriminate. reflexivity.
Qed.

Lemma find_app_first (A : Type) (f : A -> bool) l1 l2 :
  find f (l1 ++ l2) = match find f l1 with Some x => Some x | None => find f l2 end.
Proof.
  induction l1 as [|x l1 IH]; simpl; auto. destruct (f x); auto.
Qed.

Lemma node_profit_add_node g n p m :
  node_profit (add_node g n [(PROFIT_KEY, p)]) m
  = if String.eqb n m then Some p else node_profit g m.
Proof.
  unfold node_profit. rewrite node_attrs_add_node.
  destruct (String.eqb n m); auto.
  unfold dict_update. simpl. apply dict_get_set_eq.
Qed.

Lemma build_of_profit_first rev_tasks n : forall g,
  node_profit (build_of g rev_tasks) n
  = match task_named (rev rev_tasks) n with
    | Some t => Some (profit_of t)
    | None => node_profit g n
    end.
Proof.
  unfold task_named.
  induction rev_tasks as [|t1 rest IH]; intros g; simpl; auto.
  rewrite IH, find_app_first.
  destruct (find (fun t => String.eqb (name_of t) n) (rev rest)); auto.
  unfold node_profit at 1. rewrite conflicts_of_attrs.
  fold (node_profit (add_node g (name_of t1) [(PROFIT_KEY, profit_of t1)]) n).
  rewrite node_profit_add_node. simpl.
  destruct (String.eqb (name_of t1) n); auto.
Qed.

(** X4. When names repeat among well-formed records, the graph has one
    node per distinct name and the node carries the profit of the first
    record of the list with that name (the one popped last). *)
Theorem repeated_name_first_profit tasks :
  Forall (fun t => well_formed t = true) tasks ->
  exists g,
    from_tasks_to_graph str tasks = ([], Ok g)
    /\ NoDup (nodes g)
    /\ (forall n, In n (nodes g) <-> In n (map name_of tasks))
    /\ (forall n, node_profit g n = option_map profit_of (task_named tasks n)).
Proof.
  intros Hwf. exists (conflict_graph tasks).
  split; [now apply from_tasks_to_graph_wf|].
  split; [apply conflict_graph_NoDup|]. split.
  - intros n. unfold conflict_graph. split.
    + intros H. apply build_of_nodes in H. destruct H as [[]|H].
      now rewrite map_rev, <- in_rev in H.
    + intros H. apply in_map_iff in H. destruct H as (t & <- & Ht).
      apply build_of_nodes_names. now rewrite <- in_rev.
  - intros n. unfold conflict_graph.
    rewrite build_of_profit_first, rev_involutive.
    destruct (task_named tasks n); reflexivity.
Qed.

End BuilderEdges.

(** ** What [__init__] leaves in the selector *)

Lemma dict_comp_loop_get (f : string -> result Q) vs : forall d0 d,
  foldM (fun d v => x <- f v ;; Ok (dict_set d v x)) vs d0 = Ok d ->
  forall v,
    (In v vs -> exists x, f v = Ok x /\ dict_get d v = Some x)
    /\ (~ In v vs -> dict_get d v = dict_get d0 v).
Proof.
  induction vs as [|u vs IH]; intros d0 d H v.
  - simpl in H. inversion H; subst. split; [intros []|auto].
  - simpl in H. destruct (f u) as [y| |] eqn:Eu; cbn [bind] in H;
      try discriminate.
    destruct (IH _ _ H v) as [Hin Hout].
    destruct (in_dec string_dec v vs) as [Hv|Hv].
    + split; [auto|]. intros Hn. exfalso. apply Hn. now right.
    + rewrite (Hout Hv), dict_get_set. split.
      * intros [->|Hv']; [|tauto]. exists y. now rewrite String.eqb_refl.
      * intros Hn. destruct (String.eqb_spec u v) as [->|_]; auto.
        exfalso. apply Hn. now left.
Qed.

Lemma dict_comp_get f vs d v :
  dict_comp f vs = Ok d -> In v vs ->
  exists x, f v = Ok x /\ dict_get d v = Some x.
Proof.
  intros H Hv. unfold dict_comp in H.
  now apply (dict_comp_loop_get _ _ _ H v).
Qed.


Lemma selector_init_weights_aux g :
  (forall v, In v (nodes g) -> dict_mem (node_attrs g v) PROFIT_KEY = true) ->
  exists s,
    MaxWeightTasksSelector_init g (Some PROFIT_KEY) = Ok s
    /\ (forall v, In v (keys (node_weights s)) <-> In v (nodes g))
    /\ (forall v, In v (nodes g) ->
                  dict_get (node_weights s) v
                  = dict_get (node_attrs g v) PROFIT_KEY).
Proof.
  intros H. destruct (@init_ok g PROFIT_KEY H) as [s E]. exists s.
  destruct (@init_inv g PROFIT_KEY s E) as (_ & _ & _ & _ & Hk).
  split; [exact E|]. split; [exact Hk|].
  intros v Hv. pose proof E as E'. unfold MaxWeightTasksSelector_init in E'.
  destruct (foldM _ (nodes g) tt) as [[]| |]; cbn [bind] in E';
    try discriminate.
  destruct (dict_comp _ (nodes g)) as [d| |] eqn:Ed; cbn [bind] in E';
    try discriminate.
  inversion E' as [Hs]. cbn [node_weights].
  destruct (@dict_comp_get _ (nodes g) d v Ed Hv) as (x & Ex & Hx).
  rewrite Hx. unfold getitem in Ex.
  destruct (dict_get (node_attrs g v) PROFIT_KEY); inversion Ex; reflexivity.
Qed.

(** X5. [__init__] with a weight key succeeds when every node has that
    attribute: the incumbent is empty with weight 0 and [node_weights]
    gives every node of the graph, and nothing else, the value of its
    attribute. *)
Theorem selector_init_weights g weight :
  (forall v, In v (nodes g) -> dict_mem (node_attrs g v) weight = true) ->
  exists s,
    MaxWeightTasksSelector_init g (Some weight) = Ok s
    /\ G s = g /\ incumbent_nodes s = [] /\ incumbent_weight s = 0%Q
    /\ (forall v, In v (keys (node_weights s)) <-> In v (nodes g))
    /\ (forall v, In v (nodes g) ->
                  dict_get (node_weights s) v = dict_get (node_attrs g v) weight).
Proof.
  intros H. destruct (@init_ok g weight H) as [s E]. exists s.
  destruct (@init_inv g weight s E) as (EG & Ei & Ew & _ & Hk).
  split; [exact E|]. split; [exact EG|]. split; [exact Ei|].
  split; [exact Ew|]. split; [exact Hk|].
  intros v Hv. pose proof E as E'. unfold MaxWeightTasksSelector_init in E'.
  destruct (foldM _ (nodes g) tt) as [[]| |]; cbn [bind] in E';
    try discriminate.
  destruct (dict_comp _ (nodes g)) as [d| |] eqn:Ed; cbn [bind] in E';
    try discriminate.
  inversion E' as [Hs]. cbn [node_weights].
  destruct (@dict_comp_get _ (nodes g) d v Ed Hv) as (x & Ex & Hx).
  rewrite Hx. unfold getitem in Ex.
  destruct (dict_get (node_attrs g v) weight); inversion Ex; reflexivity.
Qed.


(** ** The weight the search reports *)

(** The rule of [find_max_weight_clique], with the pool it really starts
    from. *)
Lemma find_max_weight_clique_rule g nw
  (Inv : MaxWeightTasksSelector -> Prop)
  (Pre : list string -> Q -> list string -> Prop) depth s :
  (forall s, Inv s -> G s = g /\ node_weights s = nw) ->
  (forall C w P, Pre C w P -> NoDup P /\ incl P (keys nw)) ->
  (forall s C w P, Inv s -> Pre C w P ->
     Inv (update_incumbent_if_improved (log_call s C) C w)) ->
  (forall C w P v P', Pre C w P -> In v P -> NoDup P' -> ~ In v P' ->
     (forall x, In x P' <-> In x P /\ x <> v) ->
     Pre (C ++ [v]) (w + dict_val nw v)%Q
         (filter (fun x => negb (has_edge g v x)) P')
     /\ Pre C w P') ->
  Inv s -> incl (nodes g) (keys nw) -> Pre [] 0%Q (top_pool g nw) ->
  (List.length (nodes g) < depth)%nat ->
  exists s', find_max_weight_clique depth s = Ok s' /\ Inv s'.
Proof.
  intros Hframe Hpool Henter Hbranch HI Hk Htop Hlen.
  destruct (Hframe _ HI) as [EG Enw].
  unfold find_max_weight_clique. rewrite EG, Enw.
  pose proof (sorted_reverse_perm (degree g) (nodes g)) as Hperm.
  rewrite (filterM_ok _ (fun v => Qgtb (dict_val nw v) 0)).
  2:{ intros x Hx. rewrite getitem_val; [reflexivity|].
      apply Hk. eapply Permutation_in; eauto. }
  cbn [bind]. fold (top_pool g nw).
  apply (@expand_invariant g nw Inv Pre); auto.
  unfold top_pool.
  pose proof (filter_length_le (fun v => Qgtb (dict_val nw v) 0)
                (sorted_reverse (degree g) (nodes g))) as Hle.
  rewrite (Permutation_length Hperm) in Hle. lia.
Qed.

Lemma weight_sum_snoc nw C v :
  weight_sum nw (C ++ [v]) == weight_sum nw C + dict_val nw v.
Proof.
  induction C as [|c C IH]; simpl.
  - ring.
  - rewrite IH. ring.
Qed.

Lemma accounted_enter g nw s C w P :
  accounted g nw s -> accounted_call nw C w P ->
  accounted g nw (update_incumbent_if_improved (log_call s C) C w).
Proof.
  intros (EG & Enw & Hw & Hpos) (_ & HC & HposC & _).
  destruct (update_incumbent_frame (log_call s C) C w) as (E1 & E2 & _).
  unfold accounted. rewrite E1, E2. simpl.
  split; [exact EG|]. split; [exact Enw|].
  destruct (update_incumbent_cases (log_call s C) C w) as [(-> & -> & _)| ->];
    simpl; auto.
Qed.

Lemma accounted_branch g nw C w P v P' :
  accounted_call nw C w P -> In v P -> NoDup P' ->
  (forall x, In x P' <-> In x P /\ x <> v) ->
  accounted_call nw (C ++ [v]) (w + dict_val nw v)%Q
                 (filter (fun x => negb (has_edge g v x)) P')
  /\ accounted_call nw C w P'.
Proof.
  intros (HP & HC & HposC & HposP) Hv HN' Hin.
  destruct (@pool_ok_branch nw g P v P' HP HN' Hin) as [Hp1 Hp2].
  rewrite Forall_forall in HposP.
  assert (HposP' : Forall (positive nw) P').
  { apply Forall_forall. intros x Hx. apply HposP, Hin. exact Hx. }
  split.
  - split; [exact Hp1|]. split; [|split].
    + rewrite weight_sum_snoc, HC. reflexivity.
    + apply Forall_app. split; auto.
    + apply Forall_forall. intros x Hx. apply filter_In in Hx.
      rewrite Forall_forall in HposP'. apply HposP'. tauto.
  - split; [exact Hp2|]. split; [exact HC|]. split; assumption.
Qed.

Lemma top_pool_ok g nw :
  NoDup (nodes g) -> incl (nodes g) (keys nw) ->
  accounted_call nw [] 0%Q (top_pool g nw).
Proof.
  intros HN Hk.
  pose proof (sorted_reverse_perm (degree g) (nodes g)) as Hperm.
  split; [split|split; [|split]].
  - apply NoDup_filter. eapply Permutation_NoDup; [|exact HN].
    now apply Permutation_sym.
  - intros x Hx. apply filter_In in Hx. apply Hk.
    eapply Permutation_in; eauto. tauto.
  - simpl. reflexivity.
  - constructor.
  - apply Forall_forall. intros x Hx. apply filter_In in Hx.
    unfold positive. tauto.
Qed.

Lemma find_max_weight_clique_accounted g s0 depth :
  NoDup (nodes g) ->
  MaxWeightTasksSelector_init g (Some PROFIT_KEY) = Ok s0 ->
  (List.length (nodes g) < depth)%nat ->
  exists s, find_max_weight_clique depth s0 = Ok s
            /\ accounted g (node_weights s0) s.
Proof.
  intros HN Hinit Hlen.
  destruct (@init_inv g PROFIT_KEY s0 Hinit) as (EG & Ei & Ew & _ & Hk).
  assert (Hkeys : incl (nodes g) (keys (node_weights s0))).
  { intros x Hx. now apply Hk. }
  apply (@find_max_weight_clique_rule g (node_weights s0)
           (accounted g (node_weights s0))
           (accounted_call (node_weights s0))); auto.
  - intros s (E1 & E2 & _). auto.
  - intros C w P (H0 & _). exact H0.
  - intros. eapply accounted_enter; eauto.
  - intros C w P v P' H0 Hv HN' _ Hin. eapply accounted_branch; eauto.
  - unfold accounted. rewrite Ei, Ew. simpl. repeat split; auto.
  - now apply top_pool_ok.
Qed.

Lemma task_named_In tasks n :
  In n (map name_of tasks) ->
  exists t, task_named tasks n = Some t /\ In t tasks /\ name_of t = n.
Proof.
  intros H. unfold task_named.
  destruct (find (fun t => String.eqb (name_of t) n) tasks) as [t|] eqn:E.
  - apply find_some in E. destruct E as [Ht En]. apply String.eqb_eq in En.
    eauto.
  - apply in_map_iff in H. destruct H as (t & En & Ht).
    apply (find_none _ _ E) in Ht. apply String.eqb_neq in Ht. contradiction.
Qed.

Lemma task_named_notin tasks n :
  ~ In n (map name_of tasks) -> task_named tasks n = None.
Proof.
  intros H. unfold task_named.
  destruct (find (fun t => String.eqb (name_of t) n) tasks) as [t|] eqn:E; auto.
  apply find_some in E. destruct E as [Ht En]. apply String.eqb_eq in En.
  exfalso. apply H. rewrite <- En. now apply in_map.
Qed.

Lemma task_named_unique tasks t :
  NoDup (map name_of tasks) -> In t tasks -> task_named tasks (name_of t) = Some t.
Proof.
  intros HN Ht.
  destruct (@task_named_In tasks (name_of t)) as (t' & E & Ht' & En).
  { now apply in_map. }
  rewrite E. f_equal.
  exact (@NoDup_map_inj _ _ name_of tasks t' t HN Ht' Ht En).
Qed.

Lemma conflict_graph_names tasks n :
  In n (nodes (conflict_graph tasks)) <-> In n (map name_of tasks).
Proof.
  unfold conflict_graph. split.
  - intros H. apply build_of_nodes in H. destruct H as [[]|H].
    now rewrite map_rev, <- in_rev in H.
  - intros H. apply in_map_iff in H. destruct H as (t & <- & Ht).
    apply build_of_nodes_names. now rewrite <- in_rev.
Qed.

Lemma conflict_graph_profit_first tasks n :
  node_profit (conflict_graph tasks) n = option_map profit_of (task_named tasks n).
Proof.
  unfold conflict_graph. rewrite build_of_profit_first, rev_involutive.
  destruct (task_named tasks n); reflexivity.
Qed.

(** The weights the selector starts from are the profits of the tasks. *)
Lemma init_conflict_graph tasks :
  exists s0,
    MaxWeightTasksSelector_init (conflict_graph tasks) (Some PROFIT_KEY) = Ok s0
    /\ (forall n, dict_val (node_weights s0) n
                  = match task_named tasks n with
                    | Some t => profit_of t
                    | None => 0%Q
                    end).
Proof.
  set (g := conflict_graph tasks).
  destruct (@selector_init_weights_aux g) as (s0 & E & Hk & Hget).
  { intros v Hv. apply conflict_graph_names in Hv.
    destruct (@task_named_In tasks v Hv) as (t & Et & _).
    unfold dict_mem. fold (node_profit g v). unfold g.
    now rewrite conflict_graph_profit_first, Et. }
  exists s0. split; [exact E|]. intros n. unfold dict_val.
  destruct (in_dec string_dec n (nodes g)) as [Hn|Hn].
  - rewrite (Hget _ Hn). fold (node_profit g n). unfold g.
    rewrite conflict_graph_profit_first.
    destruct (task_named tasks n); reflexivity.
  - assert (Hnk : ~ In n (keys (node_weights s0))) by (now rewrite Hk).
    destruct (dict_get (node_weights s0) n) eqn:Ed.
    + exfalso. apply Hnk. eapply dict_get_Some_In; eauto.
    + rewrite task_named_notin; auto. now rewrite <- conflict_graph_names.
Qed.

Lemma weight_sum_schedule_profit tasks nw C :
  (forall n, dict_val nw n
             = match task_named tasks n with
               | Some t => profit_of t
               | None => 0%Q
               end) ->
  weight_sum nw C == schedule_profit tasks C.
Proof.
  intros H. induction C as [|c C IH]; simpl; [reflexivity|].
  rewrite H, IH. destruct (task_named tasks c); [reflexivity|ring].
Qed.

Lemma Qgtb_false_le a b : Qgtb a b = false -> (a <= b)%Q.
Proof.
  unfold Qgtb. intros H. apply negb_false_iff in H. now apply Qle_bool_iff.
Qed.

Section ReportedWeight.

Variable str : task -> string.

Lemma schedule_search_accounted tasks :
  Forall (fun t => well_formed t = true) tasks ->
  exists s0 s,
    MaxWeightTasksSelector_init (conflict_graph tasks) (Some PROFIT_KEY) = Ok s0
    /\ find_max_weight_clique
         (S (List.length (nodes (conflict_graph tasks)))) s0 = Ok s
    /\ schedule_search str tasks = Ok s
    /\ get_highest_profit_schedule str tasks = ([], Ok (incumbent_nodes s))
    /\ accounted (conflict_graph tasks) (node_weights s0) s
    /\ (forall n, dict_val (node_weights s0) n
                  = match task_named tasks n with
                    | Some t => profit_of t
                    | None => 0%Q
                    end).
Proof.
  intros Hwf. destruct (init_conflict_graph tasks) as (s0 & E0 & Hval).
  destruct (@find_max_weight_clique_accounted (conflict_graph tasks) s0
              (S (List.length (nodes (conflict_graph tasks))))
              (conflict_graph_NoDup tasks) E0) as (s & E & Hacc); [lia|].
  exists s0, s. split; [exact E0|]. split; [exact E|].
  unfold schedule_search, get_highest_profit_schedule.
  rewrite (@from_tasks_to_graph_wf str tasks Hwf).
  unfold get_maximum_weighted_independient_set, search. cbn [bind snd].
  fold (conflict_graph tasks). rewrite E0. cbn [bind]. rewrite E. cbn [bind].
  repeat split; auto; apply Hacc.
Qed.


(** X8. On well-formed tasks every name in the schedule is the name of a
    task of the list whose profit is positive: a task of profit zero or
    less is never scheduled. *)
Theorem only_positive_profit_scheduled tasks :
  Forall (fun t => well_formed t = true) tasks ->
  exists schedule,
    get_highest_profit_schedule str tasks = ([], Ok schedule)
    /\ forall n, In n schedule ->
         exists t, task_named tasks n = Some t /\ In t tasks
                   /\ name_of t = n /\ (0 < profit_of t)%Q.
Proof.
  intros Hwf.
  destruct (schedule_search_accounted Hwf)
    as (s0 & s & _ & _ & _ & Eg & (_ & _ & _ & Hpos) & Hval).
  exists (incumbent_nodes s). split; [exact Eg|].
  intros n Hn. rewrite Forall_forall in Hpos. specialize (Hpos n Hn).
  unfold positive in Hpos. rewrite Hval in Hpos.
  destruct (task_named tasks n) as [t|] eqn:Et.
  - exists t. unfold task_named in Et. apply find_some in Et.
    destruct Et as [Ht En]. apply String.eqb_eq in En.
    repeat split; auto. now apply Qgtb_lt.
  - discriminate.
Qed.

End ReportedWeight.

(** ** The schedule earns at least the best single task *)

Lemma getitem_Ok_val (d : dict Q) k x : getitem d k = Ok x -> dict_val d k = x.
Proof.
  unfold getitem, dict_val. destruct (dict_get d k); intros H; inversion H.
  reflexivity.
Qed.

Lemma branch_loop_post rec C w :
  (forall s C' w' P' s', rec s C' w' P' = Ok s' ->
     node_weights s' = node_weights s
     /\ (incumbent_weight s <= incumbent_weight s')%Q
     /\ (w' <= incumbent_weight s')%Q) ->
  forall popped s P s',
    branch_loop rec s C w P popped = Ok s' ->
    node_weights s' = node_weights s
    /\ (incumbent_weight s <= incumbent_weight s')%Q
    /\ (forall v, In v popped ->
          (w + dict_val (node_weights s) v <= incumbent_weight s')%Q).
Proof.
  intros Hrec. induction popped as [|v popped IH]; intros s P s' H; simpl in H.
  - inversion H; subst. split; auto. split; [apply Qle_refl|intros v []].
  - destruct (list_remove P v) as [P1| |]; cbn [bind] in H; try discriminate.
    destruct (getitem (node_weights s) v) as [wv| |] eqn:Ev; cbn [bind] in H;
      try discriminate.
    destruct (rec s (C ++ [v]) (w + wv)%Q
                (filter (fun x => negb (has_edge (G s) v x)) P1))
      as [s1| |] eqn:E; cbn [bind] in H; try discriminate.
    destruct (Hrec _ _ _ _ _ E) as (Enw1 & Hle1 & Hw1).
    destruct (IH _ _ _ H) as (Enw & Hle & Hall).
    split; [congruence|]. split; [eapply Qle_trans; eauto|].
    intros u [<-|Hu].
    + rewrite (getitem_Ok_val _ _ Ev). eapply Qle_trans; eauto.
    + rewrite <- Enw1. now apply Hall.
Qed.

Lemma expand_post : forall depth s C w P s',
  expand depth s C w P = Ok s' ->
  node_weights s' = node_weights s
  /\ (incumbent_weight s <= incumbent_weight s')%Q
  /\ (w <= incumbent_weight s')%Q.
Proof.
  induction depth as [|depth IH]; intros s C w P s' H; [discriminate|].
  simpl in H.
  destruct (find_branching_nodes _ P _) as [B| |]; cbn [bind] in H;
    try discriminate.
  apply (@branch_loop_post (expand depth) C w IH) in H.
  destruct H as (Enw & Hle & _).
  destruct (update_incumbent_frame (log_call s C) C w) as (_ & E2 & _).
  rewrite E2 in Enw. simpl in Enw. split; [exact Enw|].
  unfold update_incumbent_if_improved in Hle. simpl in Hle.
  destruct (Qgtb w (incumbent_weight s)) eqn:Eg; simpl in Hle.
  - split; [|exact Hle]. apply Qgtb_lt in Eg.
    eapply Qle_trans; [apply Qlt_le_weak; exact Eg|exact Hle].
  - split; [exact Hle|]. apply Qgtb_false_le in Eg.
    eapply Qle_trans; eauto.
Qed.

(** With nothing to beat, the inherited bound keeps the whole pool. *)
Lemma find_branching_nodes_all s P target :
  incl P (keys (node_weights s)) ->
  Forall (positive (node_weights s)) P -> (target <= 0)%Q ->
  find_branching_nodes s P target = Ok P.
Proof.
  intros Hk Hpos Ht. unfold find_branching_nodes.
  destruct (dict_comp_ok (getitem (node_weights s)) P) as [d Ed].
  { intros v Hv. rewrite getitem_val by auto. eauto. }
  rewrite Ed. cbn [bind].
  assert (Hd : forall v, In v P -> dict_val d v = dict_val (node_weights s) v).
  { intros v Hv. destruct (@dict_comp_get _ P d v Ed Hv) as (x & Ex & Hx).
    apply getitem_Ok_val in Ex. unfold dict_val at 1. now rewrite Hx. }
  assert (Hdk : incl P (keys d)).
  { intros v Hv. now apply (dict_comp_keys _ _ Ed). }
  destruct P as [|v0 P0]; [reflexivity|].
  set (P := v0 :: P0) in *.
  destruct (greedy_head s v0 P0) as [I' EI]. fold P in EI.
  unfold branching_loop. unfold P at 1 2. cbn [List.length].
  fold P.
  rewrite (mapM_ok (getitem d) (dict_val d));
    [|intros x Hx; apply getitem_val; apply Hdk; eapply greedy_incl; eauto].
  cbn [bind].
  destruct (py_min (map (dict_val d) (greedily_find_independent_set s P)))
    as [m| |] eqn:Em; try (rewrite EI in Em; discriminate).
  cbn [bind].
  apply py_min_In, in_map_iff in Em. destruct Em as (vm & Evm & Hvm).
  apply greedy_incl in Hvm.
  assert (Hm : (0 < m)%Q).
  { rewrite <- Evm, (Hd _ Hvm). rewrite Forall_forall in Hpos.
    now apply Qgtb_lt, Hpos. }
  assert (Hg : Qgtb (0 + m) target = true).
  { unfold Qgtb. apply negb_true_iff. apply not_true_is_false. intros Hle.
    apply Qle_bool_iff in Hle. rewrite Qplus_0_l in Hle.
    apply (Qlt_irrefl 0). eapply Qlt_le_trans; [exact Hm|].
    eapply Qle_trans; eauto. }
  rewrite Hg. reflexivity.
Qed.

Lemma find_max_weight_clique_beats_nodes g s0 depth s :
  NoDup (nodes g) ->
  MaxWeightTasksSelector_init g (Some PROFIT_KEY) = Ok s0 ->
  find_max_weight_clique depth s0 = Ok s ->
  forall v, (dict_val (node_weights s0) v <= incumbent_weight s)%Q.
Proof.
  intros HN Hinit H.
  destruct (@init_inv g PROFIT_KEY s0 Hinit) as (EG & Ei & Ew & _ & Hk).
  assert (Hkeys : incl (nodes g) (keys (node_weights s0))).
  { intros x Hx. now apply Hk. }
  destruct (@top_pool_ok g (node_weights s0) HN Hkeys)
    as ((HNP & HPk) & _ & _ & Hpos).
  unfold find_max_weight_clique in H. rewrite EG in H.
  pose proof (sorted_reverse_perm (degree g) (nodes g)) as Hperm.
  rewrite (filterM_ok _ (fun v => Qgtb (dict_val (node_weights s0) v) 0)) in H.
  2:{ intros x Hx. rewrite getitem_val; [reflexivity|].
      apply Hkeys. eapply Permutation_in; eauto. }
  cbn [bind] in H. fold (top_pool g (node_weights s0)) in H.
  pose proof (@expand_post _ _ _ _ _ _ H) as (_ & Hle0 & _).
  rewrite Ew in Hle0.
  destruct depth as [|depth]; [discriminate|]. simpl in H.
  assert (Es1 : update_incumbent_if_improved (log_call s0 []) [] 0
                = log_call s0 []).
  { unfold update_incumbent_if_improved. simpl. now rewrite Ew. }
  rewrite Es1 in H. simpl in H. rewrite Ew in H.
  rewrite (@find_branching_nodes_all (log_call s0 []) (top_pool g (node_weights s0))
             (0 - 0)%Q) in H; auto.
  2:{ unfold Qminus. rewrite Qplus_opp_r. apply Qle_refl. }
  cbn [bind] in H.
  apply (@branch_loop_post (expand depth) [] 0%Q (expand_post depth)) in H.
  destruct H as (_ & _ & Hall). simpl in Hall.
  intros v. destruct (Qgtb (dict_val (node_weights s0) v) 0) eqn:Ev.
  - destruct (in_dec string_dec v (nodes g)) as [Hv|Hv].
    + assert (Hin : In v (rev (top_pool g (node_weights s0)))).
      { rewrite <- in_rev. apply filter_In. split; auto.
        eapply Permutation_in; [apply Permutation_sym; exact Hperm|exact Hv]. }
      specialize (Hall v Hin). now rewrite Qplus_0_l in Hall.
    + exfalso. assert (Hz : dict_val (node_weights s0) v = 0%Q).
      { unfold dict_val.
        destruct (dict_get (node_weights s0) v) eqn:Ed; auto.
        exfalso. apply Hv, Hk. eapply dict_get_Some_In; eauto. }
      rewrite Hz in Ev. discriminate.
  - apply Qgtb_false_le in Ev. eapply Qle_trans; eauto.
Qed.

Section ScheduleQuality.

Variable str : task -> string.

Lemma schedule_search_beats_tasks tasks s :
  valid_tasks tasks -> schedule_search str tasks = Ok s ->
  (incumbent_weight s == schedule_profit tasks (incumbent_nodes s))
  /\ forall t, In t tasks -> (profit_of t <= incumbent_weight s)%Q.
Proof.
  intros [Hwf HN] Hs.
  destruct (schedule_search_accounted str Hwf)
    as (s0 & s' & E0 & E & Es & _ & (_ & _ & Hw & _) & Hval).
  rewrite Es in Hs. inversion Hs; subst s'. split.
  - rewrite Hw. now apply weight_sum_schedule_profit.
  - intros t Ht.
    pose proof (@find_max_weight_clique_beats_nodes _ _ _ _
                  (conflict_graph_NoDup tasks) E0 E (name_of t)) as Hle.
    rewrite Hval, (@task_named_unique tasks t HN Ht) in Hle. exact Hle.
Qed.

(** X9. On well-formed tasks with unique names the schedule returned
    earns at least as much as any single task of the list. *)
Theorem schedule_beats_single_tasks tasks :
  valid_tasks tasks ->
  exists schedule,
    get_highest_profit_schedule str tasks = ([], Ok schedule)
    /\ forall t, In t tasks ->
         (profit_of t <= schedule_profit tasks schedule)%Q.
Proof.
  intros Hv.
  destruct (schedule_search_valid str Hv) as (s & Es & Eg & _).
  destruct (schedule_search_beats_tasks Hv Es) as [Hw Hle].
  exists (incumbent_nodes s). split; [exact Eg|].
  intros t Ht. rewrite <- Hw. now apply Hle.
Qed.

(** X10. When every two tasks of a list of well-formed tasks with unique
    names share a resource and some profit is positive, the schedule is
    one task, of the highest profit in the list; in particular a single
    task of positive profit is scheduled alone. *)
Theorem all_conflicting_best_task tasks :
  valid_tasks tasks ->
  (forall t1 t2, In t1 tasks -> In t2 tasks -> t1 <> t2 -> share_resource t1 t2) ->
  (exists t0, In t0 tasks /\ (0 < profit_of t0)%Q) ->
  exists t,
    In t tasks
    /\ get_highest_profit_schedule str tasks = ([], Ok [name_of t])
    /\ forall t', In t' tasks -> (profit_of t' <= profit_of t)%Q.
Proof.
  intros Hv Hall (t0 & Ht0 & Hp0). pose proof Hv as [Hwf HN].
  destruct (schedule_search_valid str Hv)
    as (s & Es & Eg & _ & (Hind & Hnd & Hin) & _ & Hk).
  destruct (schedule_search_beats_tasks Hv Es) as [Hw Hle].
  assert (Hnames : forall n, In n (incumbent_nodes s) ->
            exists t, In t tasks /\ name_of t = n).
  { intros n Hn. apply Hin, Hk, conflict_graph_names, in_map_iff in Hn.
    destruct Hn as (t & En & Ht). eauto. }
  destruct (incumbent_nodes s) as [|a [|b C]] eqn:EC.
  - exfalso. simpl in Hw. specialize (Hle t0 Ht0). rewrite Hw in Hle.
    apply (Qlt_irrefl 0). eapply Qlt_le_trans; eauto.
  - destruct (Hnames a (or_introl eq_refl)) as (t & Ht & En).
    exists t. split; [exact Ht|]. split; [now rewrite En|].
    intros t' Ht'. specialize (Hle t' Ht'). rewrite Hw in Hle.
    simpl in Hle. rewrite <- En, (@task_named_unique tasks t HN Ht) in Hle.
    now rewrite Qplus_0_r in Hle.
  - exfalso.
    destruct (Hnames a (or_introl eq_refl)) as (ta & Hta & Ena).
    destruct (Hnames b (or_intror (or_introl eq_refl))) as (tb & Htb & Enb).
    assert (Hab : a <> b).
    { inversion Hnd as [|? ? Ha _]. intros Eab. apply Ha. rewrite Eab. now left. }
    assert (Hne : ta <> tb) by (intros ->; congruence).
    pose proof (Hall ta tb Hta Htb Hne) as Hsh.
    assert (Hedge : has_edge (conflict_graph tasks) a b = true).
    { apply (@conflict_graph_has_edge tasks a b HN).
      exists ta, tb. repeat split; auto. now apply are_incompatibles_share. }
    rewrite (Hind a b) in Hedge; [discriminate|now left|right; now left].
Qed.




End ScheduleQuality.

(** ** The caching caller *)

(** X12. Once [get_or_create_best_schedule] has returned a non-empty
    schedule, every later call on the object returns that schedule and
    changes neither the object nor the saved row, whatever the file holds
    and the scheduler would answer by then. *)
Theorem best_schedule_cached file get_schedule file' get_schedule'
  self row self1 row1 schedule :
  get_or_create_best_schedule file get_schedule self row
  = (self1, row1, Ok schedule) ->
  schedule <> [] ->
  get_or_create_best_schedule file' get_schedule' self1 row1
  = (self1, row1, Ok schedule).
Proof.
  intros H Hne.
  assert (Hb : best_schedule self1 = Some schedule).
  { unfold get_or_create_best_schedule in H.
    destruct (falsy (best_schedule self)) eqn:Ef.
    - destruct (get_or_create_raw_tasks file self row) as [[o r] [raw|e|]];
        try (inversion H; fail).
      destruct (snd (get_schedule raw)) as [sch|e|]; inversion H; subst.
      reflexivity.
    - destruct (best_schedule self) as [[|x l]|] eqn:E; try discriminate.
      inversion H; subst. exact E. }
  unfold get_or_create_best_schedule. rewrite Hb.
  destruct schedule as [|x l]; [congruence|]. reflexivity.
Qed.

(** ** The incompatibility test *)

(** X14. One scan decides [are_incompatibles]: the second [any] never
    changes the answer, which is true exactly when the two lists have a
    common element; a task without resources is incompatible with none. *)
Theorem are_incompatibles_one_scan t1_resources t2_resources :
  are_incompatibles t1_resources t2_resources
  = existsb (fun item => contains t2_resources item) t1_resources
  /\ (are_incompatibles t1_resources t2_resources = true
      <-> exists x, In x t1_resources /\ In x t2_resources)
  /\ are_incompatibles [] t2_resources = false.
Proof.
  split; [|split].
  - apply eq_true_iff_eq. rewrite are_incompatibles_share, existsb_exists.
    split.
    + intros (x & H1 & H2). exists x. split; auto. now apply contains_In.
    + intros (x & H1 & H2). exists x. split; auto. now apply contains_In.
  - apply are_incompatibles_share.
  - apply not_true_is_false. rewrite are_incompatibles_share.
    intros (x & [] & _).
Qed.

(** ** Instances of the further properties *)

Lemma from_tasks_to_graph_errors_witness :
  snd (from_tasks_to_graph str_task no_resources_first)
  = Raise (KeyError RESOURCES_KEY)
  /\ exists t, In t no_resources_first /\ has_resources t = false.
Proof.
  assert (H : snd (from_tasks_to_graph str_task no_resources_first)
              = Raise (KeyError RESOURCES_KEY)) by reflexivity.
  split; [exact H|].
  destruct (from_tasks_to_graph_errors str_task no_resources_first H)
    as [(t & _ & _ & E & _)|[[_ Ht]|[E _]]];
    [discriminate|exact Ht|discriminate].
Defined.

Lemma missing_resources_key_error_general_witness :
  from_tasks_to_graph str_task
    ([mkTask (Some "t1") None (Some 1); T "t3" ["b"] 3] ++ [T "t2" ["a"] 2])
  = ([mkTask (Some "t1") None (Some 1); T "t3" ["b"] 3],
     Raise (KeyError RESOURCES_KEY)).
Proof.
  apply (missing_resources_key_error_general str_task).
  - reflexivity.
  - repeat constructor.
  - apply Exists_cons_hd. reflexivity.
Defined.

Lemma repeated_name_first_profit_witness :
  exists g,
    from_tasks_to_graph str_task repeated_name_tasks = ([], Ok g)
    /\ node_profit g "t1" = Some 5.
Proof.
  destruct (repeated_name_first_profit str_task (tasks := repeated_name_tasks))
    as (g & E & _ & _ & Hp).
  - repeat constructor.
  - exists g. split; [exact E|]. rewrite Hp. reflexivity.
Defined.

Lemma scenario_weighted v :
  In v (nodes (conflict_graph scenario_tasks)) ->
  dict_mem (node_attrs (conflict_graph scenario_tasks) v) PROFIT_KEY = true.
Proof.
  vm_compute. intros [<-|[<-|[<-|[<-|[]]]]]; reflexivity.
Qed.

Lemma selector_init_weights_witness :
  exists s,
    MaxWeightTasksSelector_init (conflict_graph scenario_tasks) (Some PROFIT_KEY)
    = Ok s
    /\ incumbent_weight s = 0%Q.
Proof.
  destruct (selector_init_weights (conflict_graph scenario_tasks) PROFIT_KEY
              scenario_weighted) as (s & E & _ & _ & Ew & _).
  exists s. split; assumption.
Defined.



Lemma only_positive_profit_scheduled_witness :
  exists schedule,
    get_highest_profit_schedule str_task scenario_tasks = ([], Ok schedule)
    /\ forall n, In n schedule -> exists t, task_named scenario_tasks n = Some t.
Proof.
  destruct (only_positive_profit_scheduled str_task (proj1 scenario_valid))
    as (schedule & E & H).
  exists schedule. split; [exact E|].
  intros n Hn. destruct (H n Hn) as (t & Et & _). eauto.
Defined.

Lemma schedule_beats_single_tasks_witness :
  exists schedule,
    get_highest_profit_schedule str_task scenario_tasks = ([], Ok schedule)
    /\ (94 # 10 <= schedule_profit scenario_tasks schedule)%Q.
Proof.
  destruct (schedule_beats_single_tasks str_task scenario_valid)
    as (schedule & E & H).
  exists schedule. split; [exact E|].
  apply (H (T "t1" ["a"; "b"; "c"] (94 # 10))). simpl. auto.
Defined.

Lemma all_conflicting_valid : valid_tasks all_conflicting_tasks.
Proof.
  split.
  - repeat constructor.
  - repeat constructor; simpl; intuition discriminate.
Qed.

Lemma all_conflicting_share t1 t2 :
  In t1 all_conflicting_tasks -> In t2 all_conflicting_tasks -> t1 <> t2 ->
  share_resource t1 t2.
Proof.
  intros H1 H2 _. exists "a". simpl in H1, H2.
  destruct H1 as [<-|[<-|[<-|[]]]], H2 as [<-|[<-|[<-|[]]]]; simpl; auto.
Qed.

Lemma all_conflicting_best_task_witness :
  exists t,
    In t all_conflicting_tasks
    /\ get_highest_profit_schedule str_task all_conflicting_tasks
       = ([], Ok [name_of t]).
Proof.
  destruct (all_conflicting_best_task str_task all_conflicting_valid
              all_conflicting_share) as (t & Ht & E & _).
  - exists (T "t1" ["a"] 3). split; [simpl; auto|reflexivity].
  - exists t. split; assumption.
Defined.

Lemma best_schedule_cached_witness :
  get_or_create_best_schedule (Raise (ValueError "no file"))
    (fun tasks => ([], Raise (ValueError "not called")))
    (mkTasksScheduler (Some scenario_tasks) (Some ["t3"; "t4"]))
    (mkTasksScheduler (Some scenario_tasks) (Some ["t3"; "t4"]))
  = (mkTasksScheduler (Some scenario_tasks) (Some ["t3"; "t4"]),
     mkTasksScheduler (Some scenario_tasks) (Some ["t3"; "t4"]),
     Ok ["t3"; "t4"]).
Proof.
  apply (@best_schedule_cached
           (Ok scenario_tasks) (get_highest_profit_schedule str_task)
           (Raise (ValueError "no file"))
           (fun tasks => ([], Raise (ValueError "not called")))
           (mkTasksScheduler None None) (mkTasksScheduler None None)).
  - vm_compute. reflexivity.
  - discriminate.
Defined.

(** ** Tasks that share no resource *)







Section Compatible.

Variable str : task -> string.


(** X16. On well-formed tasks with unique names the graph built does not
    depend on the order of the list, but for the order of its nodes: a
    reordered list gives the same nodes (as a set), the same weights and
    the same adjacency. *)
Theorem graph_of_reordered_tasks tasks tasks' :
  valid_tasks tasks -> Permutation tasks tasks' ->
  exists g g',
    from_tasks_to_graph str tasks = ([], Ok g)
    /\ from_tasks_to_graph str tasks' = ([], Ok g')
    /\ Permutation (nodes g) (nodes g')
    /\ (forall n, node_profit g n = node_profit g' n)
    /\ (forall a b, has_edge g a b = has_edge g' a b).
Proof.
  intros [Hwf HN] Hperm.
  assert (Hwf' : Forall (fun t => well_formed t = true) tasks').
  { rewrite Forall_forall in *. intros t Ht. apply Hwf.
    eapply Permutation_in; [apply Permutation_sym; exact Hperm|exact Ht]. }
  assert (HN' : NoDup (map name_of tasks')).
  { eapply Permutation_NoDup; [|exact HN]. now apply Permutation_map. }
  exists (conflict_graph tasks), (conflict_graph tasks').
  split; [now apply from_tasks_to_graph_wf|].
  split; [now apply from_tasks_to_graph_wf|].
  split; [|split].
  - rewrite (@conflict_graph_nodes tasks HN), (@conflict_graph_nodes tasks' HN').
    now apply Permutation_map.
  - intros n. rewrite !conflict_graph_profit_first.
    destruct (in_dec string_dec n (map name_of tasks)) as [Hn|Hn].
    + destruct (@task_named_In tasks n Hn) as (t & Et & Ht & En).
      assert (Ht' : In t tasks') by (eapply Permutation_in; eauto).
      rewrite Et, <- En, (@task_named_unique tasks' t HN' Ht'). reflexivity.
    + rewrite !task_named_notin; auto.
      intros Hn'. apply Hn.
      eapply Permutation_in; [|exact Hn'].
      apply Permutation_map, Permutation_sym, Hperm.
  - intros a b. apply eq_true_iff_eq.
    rewrite (@conflict_graph_has_edge tasks a b HN),
      (@conflict_graph_has_edge tasks' a b HN').
    split; intros (t1 & t2 & H1 & H2 & H); exists t1, t2;
      (split; [|split; [|exact H]]).
    + eapply Permutation_in; eauto.
    + eapply Permutation_in; eauto.
    + eapply Permutation_in; [apply Permutation_sym|]; eauto.
    + eapply Permutation_in; [apply Permutation_sym|]; eauto.
Qed.

(** X13. When the last record of the list lacks [name] or [profit], the
    builder raises [InvalidTaskFormat] with the record's content in the
    message, having popped that record only, and
    [get_highest_profit_schedule] raises the same. *)
Theorem last_record_invalid_format tasks t :
  has_name_profit t = false ->
  from_tasks_to_graph str (tasks ++ [t])
  = (tasks, Raise (InvalidTaskFormat (invalid_task_msg str t)))
  /\ get_highest_profit_schedule str (tasks ++ [t])
     = (tasks, Raise (InvalidTaskFormat (invalid_task_msg str t)))
  /\ occurs_in (str t) (invalid_task_msg str t).
Proof.
  intros H.
  assert (E : from_tasks_to_graph str (tasks ++ [t])
              = (tasks, Raise (InvalidTaskFormat (invalid_task_msg str t)))).
  { unfold from_tasks_to_graph. rewrite rev_app_distr. simpl.
    rewrite rev_involutive.
    destruct t as [[n|] r [p|]]; try discriminate; reflexivity. }
  split; [exact E|]. split.
  - unfold get_highest_profit_schedule. rewrite E. reflexivity.
  - unfold occurs_in, invalid_task_msg. eauto.
Qed.

End Compatible.




Lemma graph_of_reordered_tasks_witness :
  exists g g',
    from_tasks_to_graph str_task scenario_tasks = ([], Ok g)
    /\ from_tasks_to_graph str_task (rev scenario_tasks) = ([], Ok g')
    /\ forall a b, has_edge g a b = has_edge g' a b.
Proof.
  destruct (graph_of_reordered_tasks str_task scenario_valid
              (Permutation_rev scenario_tasks))
    as (g & g' & E & E' & _ & _ & H).
  exists g, g'. repeat split; assumption.
Defined.

Lemma last_record_invalid_format_witness :
  from_tasks_to_graph str_task
    ([T "t2" ["a"] 2] ++ [mkTask None (Some ["a"]) (Some 1)])
  = ([T "t2" ["a"] 2],
     Raise (InvalidTaskFormat
              (invalid_task_msg str_task (mkTask None (Some ["a"]) (Some 1))))).
Proof.
  apply (last_record_invalid_format str_task [T "t2" ["a"] 2]
           (mkTask None (Some ["a"]) (Some 1))).
  reflexivity.
Defined.
